(** * discord_presence.py: privacy-aware window labels and the presence session

    A shallow embedding of [src/discord_presence.py]: the term matcher
    ([parse_mask_terms], [title_has_sensitive_term]), the label classifier
    ([sanitize_title_to_short_label], [derive_label]) and the presence
    session ([PresenceClient] with [connect], [update], [close],
    [safe_update]) and one turn of the poll loop of [main], followed by the
    properties of the specification and further properties of the code.

    Python strings are sequences of Unicode code points: [len], slicing and
    the [in] operator all count code points, so a string is a list of code
    points here. *)

From Stdlib Require Import List NArith ZArith QArith Qminmax Bool Ascii String Lia.
From Stdlib Require Import Lqa Sorting.Sorted.
Import ListNotations.

Close Scope Q_scope.
Open Scope nat_scope.
Set Implicit Arguments.

(** ** Strings *)

Definition char := N.
Definition pystr := list char.

(** An ASCII literal as a Python string. *)
Definition lit (s : string) : pystr :=
  List.map N_of_ascii (list_ascii_of_string s).

Fixpoint str_eqb (a b : pystr) : bool :=
  match a, b with
  | [], [] => true
  | x :: a', y :: b' => N.eqb x y && str_eqb a' b'
  | _, _ => false
  end.

(** Python orders strings lexicographically by code point. *)
Fixpoint str_compare (a b : pystr) : comparison :=
  match a, b with
  | [], [] => Eq
  | [], _ :: _ => Lt
  | _ :: _, [] => Gt
  | x :: a', y :: b' =>
      match N.compare x y with
      | Eq => str_compare a' b'
      | c => c
      end
  end.

Definition str_lt (a b : pystr) : Prop := str_compare a b = Lt.

(** [x in xs] for a tuple, set or dict keys of strings. *)
Definition str_mem (x : pystr) (xs : list pystr) : bool :=
  existsb (str_eqb x) xs.

(** [str.isspace] on one code point, which is also the class [\s] of a
    [str] pattern: the code points CPython's [_PyUnicode_IsWhitespace]
    accepts. *)
Definition isspace (c : char) : bool :=
  ((9 <=? c) && (c <=? 13) || (28 <=? c) && (c <=? 32)
   || (c =? 133) || (c =? 160) || (c =? 5760)
   || (8192 <=? c) && (c <=? 8202)
   || (c =? 8232) || (c =? 8233) || (c =? 8239) || (c =? 8287)
   || (c =? 12288))%N.

Fixpoint lstrip (s : pystr) : pystr :=
  match s with
  | [] => []
  | c :: s' => if isspace c then lstrip s' else s
  end.

Definition rstrip (s : pystr) : pystr := rev (lstrip (rev s)).

(** [s.strip()] *)
Definition strip (s : pystr) : pystr := rstrip (lstrip s).

(** [s.split(sep)] for a one-character separator. *)
Fixpoint split (sep : char) (s : pystr) : list pystr :=
  match s with
  | [] => [[]]
  | c :: s' =>
      if N.eqb c sep then [] :: split sep s'
      else match split sep s' with
           | w :: ws => (c :: w) :: ws
           | [] => [[c]]
           end
  end.

Fixpoint starts_with (p s : pystr) : bool :=
  match p, s with
  | [], _ => true
  | x :: p', y :: s' => N.eqb x y && starts_with p' s'
  | _ :: _, [] => false
  end.

(** [needle in hay]: substring test. *)
Fixpoint str_in (needle hay : pystr) : bool :=
  starts_with needle hay
  || match hay with
     | [] => false
     | _ :: hay' => str_in needle hay'
     end.

(** What [needle in hay] decides: [t] occurs in [s] as a substring. *)
Definition occurs (t s : pystr) : Prop :=
  exists pre post, s = pre ++ t ++ post.

(** [s[:k]] with Python's treatment of a negative or too large bound. *)
Definition slice_to (k : Z) (s : pystr) : pystr :=
  let n := Z.of_nat (List.length s) in
  let stop := if (k <? 0)%Z then Z.max 0 (n + k) else Z.min k n in
  firstn (Z.to_nat stop) s.

(** [re.sub(r"\s+", " ", s)]: every maximal run of whitespace becomes one
    space; [in_run] says that the previous character was whitespace. *)
Fixpoint sub_ws_from (in_run : bool) (s : pystr) : pystr :=
  match s with
  | [] => []
  | c :: s' =>
      if isspace c
      then (if in_run then sub_ws_from true s' else 32%N :: sub_ws_from true s')
      else c :: sub_ws_from false s'
  end.

Definition sub_ws (s : pystr) : pystr := sub_ws_from false s.

(** [sorted(set(xs))]: the distinct elements in increasing order. *)
Fixpoint insert_uniq (x : pystr) (l : list pystr) : list pystr :=
  match l with
  | [] => [x]
  | y :: l' =>
      match str_compare x y with
      | Lt => x :: l
      | Eq => l
      | Gt => y :: insert_uniq x l'
      end
  end.

Definition sorted_set (xs : list pystr) : list pystr :=
  fold_right insert_uniq [] xs.

(** ** The Unicode tables of the interpreter

    [str.lower] and the class [\d] of a [str] pattern are decided by the
    Unicode database of the running interpreter.  The program is embedded
    over any such tables; [ascii_tables] are the tables cut down to ASCII,
    on which concrete inputs are evaluated. *)

Class UnicodeTables := {
  str_lower : pystr -> pystr;
  re_decimal : char -> bool
}.

Definition ascii_lower (c : char) : char :=
  if ((65 <=? c) && (c <=? 90))%N then (c + 32)%N else c.

Definition ascii_digit (c : char) : bool := ((48 <=? c) && (c <=? 57))%N.

#[global] Instance ascii_tables : UnicodeTables := {|
  str_lower := List.map ascii_lower;
  re_decimal := ascii_digit
|}.

Definition is_ascii (c : char) : bool := (c <? 128)%N.

(** What every interpreter's [str.lower] does on an ASCII string. *)
Definition lowers_ascii (U : UnicodeTables) : Prop :=
  forall s, forallb is_ascii s = true -> str_lower s = List.map ascii_lower s.

(** ** Regular expressions, as [re] runs them

    A backtracking matcher: [rmatch r s] lists, in the order in which the
    engine tries them, the suffixes of [s] left after a match of [r] at the
    start of [s].  Repetition is greedy. *)

Inductive regex :=
| Cls (p : char -> bool)
| Cat (r1 r2 : regex)
| Rep (r : regex) (lo : nat) (hi : option nat).

(** [r?] *)
Definition Opt (r : regex) : regex := Rep r 0 (Some 1).

(** [r{lo,hi}] where [m] matches [r]: one more turn of [r] is tried before
    stopping.  [fuel] bounds the turns; [rmatch] gives one more than the
    length of the text, which a part that takes a character at every turn
    never uses up ([rmatch_rep] below). *)
Fixpoint rep (m : pystr -> list pystr) (fuel lo : nat) (hi : option nat)
    (s : pystr) : list pystr :=
  let stop := if Nat.eqb lo 0 then [s] else [] in
  match fuel with
  | O => stop
  | S fuel' =>
      match hi with
      | Some O => stop
      | _ => flat_map (rep m fuel' (Nat.pred lo) (option_map Nat.pred hi)) (m s)
             ++ stop
      end
  end.

Fixpoint rmatch (r : regex) (s : pystr) : list pystr :=
  match r with
  | Cls p => match s with
             | c :: s' => if p c then [s'] else []
             | [] => []
             end
  | Cat r1 r2 => flat_map (rmatch r2) (rmatch r1 s)
  | Rep r' lo hi => rep (rmatch r') (S (List.length s)) lo hi s
  end.

(** [r] takes at least one character in every match. *)
Fixpoint advances (r : regex) : bool :=
  match r with
  | Cls _ => true
  | Cat r1 r2 => advances r1 || advances r2
  | Rep r' lo _ => negb (Nat.eqb lo 0) && advances r'
  end.

(** Every repeated part of [r] takes at least one character in every
    match, so that a repetition over [s] has at most [length s] turns. *)
Fixpoint guarded (r : regex) : bool :=
  match r with
  | Cls _ => true
  | Cat r1 r2 => guarded r1 && guarded r2
  | Rep r' _ _ => guarded r' && advances r'
  end.

(** [pattern.search(s)] for a pattern [(?P<g>group)rest]: the first position
    of [s] at which the pattern matches, and there the text of the group in
    the first match the engine finds. *)
Definition match_group (group rest : regex) (s : pystr) : option pystr :=
  match flat_map (fun s1 => List.map (fun s2 => (s1, s2)) (rmatch rest s1))
                 (rmatch group s) with
  | (s1, _) :: _ => Some (firstn (List.length s - List.length s1) s)
  | [] => None
  end.

Fixpoint search_group (group rest : regex) (s : pystr) : option pystr :=
  match match_group group rest s with
  | Some g => Some g
  | None => match s with
            | [] => None
            | _ :: s' => search_group group rest s'
            end
  end.

(** ** Configuration and defaults *)

(** ["Working — details hidden"], with U+2014 between the two parts. *)
Definition SAFE_MASK_MESSAGE : pystr :=
  lit "Working " ++ [8212%N] ++ lit " details hidden".

Definition SAFE_IDLE_MESSAGE : pystr := lit "Idle".

(** ["…"], U+2026. *)
Definition ELLIPSIS : char := 8230%N.

Definition DEFAULT_SENSITIVE_TERMS : list pystr :=
  List.map lit
    [ "companyname"; "confidential"; "privacy"; "secret"; "nces"; "budget";
      "invoice"; "payroll"; "student"; "medical"; "legal"; "hr"; "finance";
      "salary"; "contract"; "nda" ]%string.

Definition BROWSERS : list pystr :=
  List.map lit
    [ "chrome.exe"; "msedge.exe"; "firefox.exe"; "brave.exe"; "opera.exe";
      "vivaldi.exe" ]%string.

Definition APP_MAP : list (pystr * pystr) :=
  List.map (fun kv => (lit (fst kv), lit (snd kv)))
    [ ("excel.exe", "Working in Excel");
      ("winword.exe", "Working in Word");
      ("powerpnt.exe", "Working in PowerPoint");
      ("notepad.exe", "Editing Text");
      ("code.exe", "Coding in VS Code");
      ("pycharm64.exe", "Coding in PyCharm") ]%string.

(** [d.get(k)]: [None] when [k not in d]. *)
Fixpoint dict_get (d : list (pystr * pystr)) (k : pystr) : option pystr :=
  match d with
  | [] => None
  | (k', v) :: d' => if str_eqb k k' then Some v else dict_get d' k
  end.

(** The character classes of [DOMAIN_RE].  The pattern is compiled with
    [re.IGNORECASE]: on a [str] pattern the range [a-z] then matches the 52
    ASCII letters and U+0130, U+0131, U+017F and U+212A. *)
Definition cls_alpha (c : char) : bool :=
  ((97 <=? c) && (c <=? 122) || (65 <=? c) && (c <=? 90)
   || (c =? 304) || (c =? 305) || (c =? 383) || (c =? 8490))%N.

Definition cls_alnum (c : char) : bool :=
  cls_alpha c || ((48 <=? c) && (c <=? 57))%N.

Definition cls_alnum_hyphen (c : char) : bool :=
  cls_alnum c || (c =? 45)%N.

Definition cls_char (x : N) (c : char) : bool := (c =? x)%N.

(** [getenv_str(name, default)], given [v = os.getenv(name)]. *)
Definition getenv_str (v default : option pystr) : option pystr :=
  match v with
  | Some s => match strip s with
              | [] => default
              | _ :: _ => Some s
              end
  | None => default
  end.

Section Classifier.

Context {U : UnicodeTables}.

(** [(?:[a-z0-9](?:[a-z0-9-]{0,61}[a-z0-9])?\.)+[a-z]{2,}], the group
    [host] of [DOMAIN_RE]. *)
Definition DOMAIN_RE_host : regex :=
  Cat (Rep (Cat (Cls cls_alnum)
                (Cat (Opt (Cat (Rep (Cls cls_alnum_hyphen) 0 (Some 61))
                               (Cls cls_alnum)))
                     (Cls (cls_char 46))))
           1 None)
      (Rep (Cls cls_alpha) 2 None).

(** [(?::\d+)?], what follows the group. *)
Definition DOMAIN_RE_port : regex :=
  Opt (Cat (Cls (cls_char 58)) (Rep (Cls re_decimal) 1 None)).

(** [m = DOMAIN_RE.search(title)], then [m.group("host")]. *)
Definition DOMAIN_RE_search (title : pystr) : option pystr :=
  search_group DOMAIN_RE_host DOMAIN_RE_port title.

(** [parse_mask_terms()], given [v = os.getenv("MASK_TERMS")]. *)
Definition parse_mask_terms (v : option pystr) : list pystr :=
  let env := getenv_str v None in
  let terms :=
    match env with
    | Some ((_ :: _) as e) =>
        flat_map (fun t => let t := strip t in
                           match t with
                           | [] => []
                           | _ :: _ => [str_lower t]
                           end)
                 (split 44%N e)
    | _ => DEFAULT_SENSITIVE_TERMS
    end in
  sorted_set (List.map str_lower terms).

(** [SENSITIVE_TERMS] is fixed when the module is loaded; the functions
    below read it, so they take it as [terms]. *)
Definition title_has_sensitive_term (terms : list pystr) (title : pystr)
  : bool :=
  let low := str_lower title in
  existsb (fun t => match t with
                    | [] => false
                    | _ :: _ => str_in t low
                    end) terms.

Definition sanitize_title_to_short_label (title : pystr) (max_len : Z)
  : pystr :=
  let t := strip title in
  let t := sub_ws t in
  let t := if (Z.of_nat (List.length t) >? max_len)%Z
           then rstrip (slice_to (max_len - 1) t) ++ [ELLIPSIS]
           else t in
  match t with
  | [] => SAFE_IDLE_MESSAGE
  | _ :: _ => t
  end.

Definition derive_label (terms : list pystr) (title exe : pystr)
  : pystr * option pystr :=
  if title_has_sensitive_term terms title then (SAFE_MASK_MESSAGE, None)
  else match title with
  | [] => (SAFE_IDLE_MESSAGE, None)
  | _ :: _ =>
      if str_mem exe BROWSERS then
        match DOMAIN_RE_search title with
        | Some host => (lit "Browsing " ++ str_lower host, None)
        | None =>
            (lit "Browsing " ++ sanitize_title_to_short_label title 40, None)
        end
      else match dict_get APP_MAP exe with
      | Some label => (label, None)
      | None => (sanitize_title_to_short_label title 40, None)
      end
  end.

End Classifier.

(** ** The presence session

    [pypresence] is outside the program.  A run sees it only through the
    outcomes of its calls, so the channel is an oracle that says, for each
    operation, whether its k-th call returns or raises; every call and every
    [time.sleep] is recorded in a trace, most recent first. *)

(** The exceptions [safe_update] tells apart; [AssertionError] is what the
    [assert] of [update] raises, and [OtherError] stands for any other
    subclass of [Exception]. *)
Inductive exn :=
| InvalidPipe | ConnectionRefusedError | InvalidID | AssertionError | OtherError.

Inductive level := DEBUG | WARNING | ERROR.

(** A [Presence] object is known by the number of its construction. *)
Definition handle := nat.

Inductive event :=
| CallInit (h : handle)
| CallConnect (h : handle)
| CallUpdate (h : handle) (state : pystr) (large_image : option pystr)
| CallClear (h : handle)
| CallClose (h : handle)
| Sleep (secs : Q)
| Log (lvl : level).

(** What the k-th call of each operation of the channel does: [None] when it
    returns, [Some e] when it raises [e].  [on_init] is the construction
    [Presence(client_id)]. *)
Record Channel := {
  on_init : nat -> option exn;
  on_connect : nat -> option exn;
  on_update : nat -> option exn;
  on_clear : nat -> option exn;
  on_close : nat -> option exn
}.

Record PresenceClient := {
  client_id : pystr;
  _rpc : option handle;
  _connected : bool
}.

Record State := {
  self : PresenceClient;
  trace : list event
}.

Inductive result (A : Type) :=
| Ret (a : A)
| Raise (e : exn).
Arguments Raise {A} e.

(** A method of the session: it reads and changes the state, and returns or
    raises. *)
Definition M (A : Type) : Type := State -> result A * State.

Definition ret {A} (a : A) : M A := fun s => (Ret a, s).

Definition raise {A} (e : exn) : M A := fun s => (Raise e, s).

Definition bind {A B} (m : M A) (k : A -> M B) : M B :=
  fun s => match m s with
           | (Ret a, s') => k a s'
           | (Raise e, s') => (Raise e, s')
           end.

Notation "x <- m ;; k" := (bind m (fun x => k))
  (at level 61, m at next level, right associativity).
Notation "m ;; k" := (bind m (fun _ => k))
  (at level 61, right associativity).

(** [try: m  except ...: handler(e)] *)
Definition try_except {A} (m : M A) (handler : exn -> M A) : M A :=
  fun s => match m s with
           | (Ret a, s') => (Ret a, s')
           | (Raise e, s') => handler e s'
           end.

(** [try: m  finally: f]: [f] runs on both exits, and an exception of [m]
    goes on to the caller after it. *)
Definition try_finally {A} (m : M A) (f : M unit) : M A :=
  fun s => match m s with
           | (r, s') => match f s' with
                        | (Ret _, s'') => (r, s'')
                        | (Raise e, s'') => (Raise e, s'')
                        end
           end.

Definition is_none {A} (o : option A) : bool :=
  match o with None => true | Some _ => false end.

Definition get_self : M PresenceClient := fun s => (Ret (self s), s).

Definition with_rpc (r : option handle) (s : State) : State :=
  {| self := {| client_id := client_id (self s);
                _rpc := r;
                _connected := _connected (self s) |};
     trace := trace s |}.

Definition with_connected (b : bool) (s : State) : State :=
  {| self := {| client_id := client_id (self s);
                _rpc := _rpc (self s);
                _connected := b |};
     trace := trace s |}.

Definition record (ev : event) (s : State) : State :=
  {| self := self s; trace := ev :: trace s |}.

(** [self._rpc = r] *)
Definition set_rpc (r : option handle) : M unit :=
  fun s => (Ret tt, with_rpc r s).

(** [self._connected = b] *)
Definition set_connected (b : bool) : M unit :=
  fun s => (Ret tt, with_connected b s).

Definition emit (ev : event) : M unit :=
  fun s => (Ret tt, record ev s).

Definition is_init (ev : event) : bool :=
  match ev with CallInit _ => true | _ => false end.
Definition is_connect (ev : event) : bool :=
  match ev with CallConnect _ => true | _ => false end.
Definition is_update (ev : event) : bool :=
  match ev with CallUpdate _ _ _ => true | _ => false end.
Definition is_clear (ev : event) : bool :=
  match ev with CallClear _ => true | _ => false end.
Definition is_close (ev : event) : bool :=
  match ev with CallClose _ => true | _ => false end.

(** How many calls of one kind a trace holds. *)
Definition calls (kind : event -> bool) (tr : list event) : nat :=
  List.length (filter kind tr).

(** The sleeps of a trace, oldest first. *)
Definition sleeps (tr : list event) : list Q :=
  flat_map (fun ev => match ev with Sleep q => [q] | _ => [] end) (rev tr).

(** One call into the channel: recorded, then decided by the oracle. *)
Definition channel_call (outcome : nat -> option exn) (kind : event -> bool)
    (ev : event) : M unit :=
  fun s =>
    match outcome (calls kind (trace s)) with
    | None => (Ret tt, record ev s)
    | Some e => (Raise e, record ev s)
    end.

Definition log (lvl : level) : M unit := emit (Log lvl).

(** [time.sleep(secs)] *)
Definition sleep (secs : Q) : M unit := emit (Sleep secs).

(** [payload["large_image"]], set only for a non-empty image key. *)
Definition payload_image (large_image : option pystr) : option pystr :=
  match large_image with
  | Some ((_ :: _) as i) => Some i
  | _ => None
  end.

Section Session.

Variable ch : Channel.

(** [Presence(self.client_id)] *)
Definition Presence : M handle :=
  fun s =>
    let h := calls is_init (trace s) in
    match channel_call (on_init ch) is_init (CallInit h) s with
    | (Ret _, s') => (Ret h, s')
    | (Raise e, s') => (Raise e, s')
    end.

Definition connect : M unit :=
  c <- get_self ;;
  if _connected c && negb (is_none (_rpc c)) then ret tt
  else
    h <- Presence ;;
    set_rpc (Some h) ;;
    channel_call (on_connect ch) is_connect (CallConnect h) ;;
    set_connected true ;;
    log DEBUG.

Definition update (state : pystr) (large_image : option pystr) : M unit :=
  c <- get_self ;;
  (if negb (_connected c) || is_none (_rpc c)
   then connect else ret tt) ;;
  let image := payload_image large_image in
  c <- get_self ;;
  match _rpc c with
  | None => raise AssertionError
  | Some h => channel_call (on_update ch) is_update (CallUpdate h state image)
  end.

Definition close : M unit :=
  try_finally
    (c <- get_self ;;
     match _rpc c with
     | Some h =>
         channel_call (on_clear ch) is_clear (CallClear h) ;;
         channel_call (on_close ch) is_close (CallClose h)
     | None => ret tt
     end)
    (set_rpc None ;;
     set_connected false ;;
     log DEBUG).

(** One turn of the [while True] of [safe_update]: [None] is its
    [return], [Some b] the next turn with backoff [b]. *)
Definition safe_update_turn (state : pystr) (large_image : option pystr)
    (backoff : Q) : M (option Q) :=
  let max_backoff := 16%Q in
  try_except
    (update state large_image ;; ret None)
    (fun e =>
       match e with
       | InvalidPipe | ConnectionRefusedError =>
           set_connected false ;;
           log DEBUG ;;
           sleep backoff ;;
           let backoff := Qmin max_backoff (backoff * 2)%Q in
           try_except
             (connect ;; ret (Some backoff))
             (fun e' =>
                match e' with
                | InvalidID | InvalidPipe | ConnectionRefusedError =>
                    ret (Some backoff)
                | _ => raise e'
                end)
       | InvalidID =>
           log ERROR ;;
           raise e
       | _ =>
           log WARNING ;;
           sleep backoff ;;
           ret (Some (Qmin max_backoff (backoff * (3 # 2))%Q))
       end).

(** The loop has no bound of its own; [fuel] bounds the turns, and [None]
    means that [fuel] turns did not end it. *)
Fixpoint safe_update_loop (fuel : nat) (state : pystr)
    (large_image : option pystr) (backoff : Q) (s : State)
  : option (result unit * State) :=
  match fuel with
  | O => None
  | S fuel' =>
      match safe_update_turn state large_image backoff s with
      | (Ret None, s') => Some (Ret tt, s')
      | (Ret (Some backoff'), s') =>
          safe_update_loop fuel' state large_image backoff' s'
      | (Raise e, s') => Some (Raise e, s')
      end
  end.

Definition safe_update (fuel : nat) (state : pystr)
    (large_image : option pystr) (s : State)
  : option (result unit * State) :=
  safe_update_loop fuel state large_image 1%Q s.

(** The [finally] of [main]: [try: client.close()  except Exception: pass]. *)
Definition main_finally : M unit :=
  try_except close (fun _ => ret tt).

End Session.

(** [PresenceClient(DISCORD_CLIENT_ID, log)], before anything happened. *)
Definition new_client (id : pystr) : State :=
  {| self := {| client_id := id; _rpc := None; _connected := false |};
     trace := [] |}.

(** ** States of a run *)

(** The exceptions of the first [except] clause of [safe_update]. *)
Definition is_pipe_error (e : exn) : bool :=
  match e with
  | InvalidPipe | ConnectionRefusedError => true
  | _ => false
  end.

(** The test at the head of [connect], negated at the head of [update]. *)
Definition is_ready (s : State) : bool :=
  _connected (self s) && negb (is_none (_rpc (self s))).

(** The state [connect] leaves when it constructs a [Presence] and both the
    construction and the connection succeed. *)
Definition connected_anew (s : State) : State :=
  let h := calls is_init (trace s) in
  record (Log DEBUG)
    (with_connected true
       (record (CallConnect h) (with_rpc (Some h) (record (CallInit h) s)))).

(** The state in which [update] calls the channel, when the channel can be
    constructed and connected. *)
Definition ensured (s : State) : State :=
  if is_ready s then s else connected_anew s.

(** The state in which the handler of a pipe failure tries to reconnect. *)
Definition backing_off (backoff : Q) (s : State) : State :=
  record (Sleep backoff) (record (Log DEBUG) (with_connected false s)).

(** A handle held by the session was constructed earlier in the trace. *)
Definition wf (s : State) : Prop :=
  forall h, _rpc (self s) = Some h -> h < calls is_init (trace s).

(** ** Channels for concrete runs *)

(** An oracle that fails at the listed calls and nowhere else. *)
Definition scripted (failures : list (nat * exn)) (k : nat) : option exn :=
  match find (fun p => Nat.eqb (fst p) k) failures with
  | Some p => Some (snd p)
  | None => None
  end.

(** [update] finds the pipe broken on its first two calls. *)
Definition pipe_broken_twice : Channel := {|
  on_init := scripted [];
  on_connect := scripted [];
  on_update := scripted [(0, InvalidPipe); (1, ConnectionRefusedError)];
  on_clear := scripted [];
  on_close := scripted []
|}.

(** The first [connect] is refused for its client id. *)
Definition id_refused : Channel := {|
  on_init := scripted [];
  on_connect := scripted [(0, InvalidID)];
  on_update := scripted [];
  on_clear := scripted [];
  on_close := scripted []
|}.

(** The first [update] finds the pipe broken, and the reconnect that
    follows is refused for its client id. *)
Definition id_refused_on_reconnect : Channel := {|
  on_init := scripted [];
  on_connect := scripted [(1, InvalidID)];
  on_update := scripted [(0, InvalidPipe)];
  on_clear := scripted [];
  on_close := scripted []
|}.

(** [clear] fails during teardown. *)
Definition clear_fails : Channel := {|
  on_init := scripted [];
  on_connect := scripted [];
  on_update := scripted [];
  on_clear := scripted [(0, OtherError)];
  on_close := scripted []
|}.

(** A session connected through its first [Presence] object. *)
Definition connected_client (id : pystr) : State :=
  connected_anew (new_client id).

(** ** Further definitions *)

(** The entries [parse_mask_terms] collects from a value that is not
    blank: trimmed, the empty ones dropped, lowercased. *)
Definition collected {U : UnicodeTables} (raw : pystr) : list pystr :=
  flat_map (fun t => match strip t with
                     | [] => []
                     | _ :: _ => [str_lower (strip t)]
                     end)
           (split 44%N raw).

(** ** Tidy labels *)

(** Whitespace in [s] is single U+0020 characters, none of them first when
    [after_space] holds. *)
Fixpoint single_spaced (after_space : bool) (s : pystr) : bool :=
  match s with
  | [] => true
  | c :: s' =>
      if isspace c
      then N.eqb c 32 && negb after_space && single_spaced true s'
      else single_spaced false s'
  end.

(** No whitespace at either end, and between words one U+0020 each. *)
Definition tidy (s : pystr) : bool :=
  single_spaced true s && negb (isspace (last s 0%N)).

(** The characters a match of [r] can hold. *)
Fixpoint alphabet (r : regex) (c : char) : bool :=
  match r with
  | Cls p => p c
  | Cat r1 r2 => alphabet r1 c || alphabet r2 c
  | Rep r' _ _ => alphabet r' c
  end.

(** The events [connect] can add to the trace. *)
Definition connect_event (ev : event) : Prop :=
  match ev with
  | CallInit _ | CallConnect _ | Log _ => True
  | _ => False
  end.

(** The events [safe_update state large_image] can add to the trace. *)
Definition safe_update_event (state : pystr) (large_image : option pystr)
    (ev : event) : Prop :=
  match ev with
  | CallUpdate _ st im => st = state /\ im = payload_image large_image
  | CallClear _ | CallClose _ => False
  | Sleep q => (1 <= q <= 16)%Q
  | CallInit _ | CallConnect _ | Log _ => True
  end.

(** [update] always finds the pipe broken. *)
Definition pipe_always_broken : Channel := {|
  on_init := scripted [];
  on_connect := scripted [];
  on_update := fun _ => Some InvalidPipe;
  on_clear := scripted [];
  on_close := scripted []
|}.

(** [update] fails twice for a reason of its own, not a pipe error. *)
Definition update_fails_twice : Channel := {|
  on_init := scripted [];
  on_connect := scripted [];
  on_update := scripted [(0, OtherError); (1, OtherError)];
  on_clear := scripted [];
  on_close := scripted []
|}.

(** ** The poll loop of [main] *)

(** The float [0.1], exactly. *)
Definition FLOAT_0_1 : Q := 3602879701896397 # 36028797018963968.

Section Main.

Context {U : UnicodeTables}.

Variable ch : Channel.

(** [a - b] on floats, as the interpreter rounds it. *)
Variable float_sub : Q -> Q -> Q.

(** One turn of the [while True] of [main], given [now = time.time()] and
    [probe = active_window_title_and_exe()]; [terms] is [SENSITIVE_TERMS]
    and [fuel] bounds the turns of [safe_update].  It returns the new
    [last_update]. *)
Definition main_turn (fuel : nat) (terms : list pystr)
    (update_secs check_interval : Z) (now : Q) (probe : pystr * pystr)
    (last_update : Q) (s : State) : option (result Q * State) :=
  let polled :=
    if Qle_bool (inject_Z (Z.max 2 update_secs)) (float_sub now last_update)
    then
      let (title, exe) := probe in
      let exe := str_lower exe in
      let (label, image) := derive_label terms title exe in
      match safe_update ch fuel label image (record (Log DEBUG) s) with
      | Some (Ret _, s') => Some (Ret now, s')
      | Some (Raise e, s') => Some (Raise e, s')
      | None => None
      end
    else Some (Ret last_update, s) in
  match polled with
  | Some (Ret last, s') =>
      Some (Ret last,
            record (Sleep (Qmax FLOAT_0_1 (inject_Z check_interval))) s')
  | other => other
  end.

End Main.

(** ** [str.lower] on Greek text

    [str.lower] is not letter by letter: a capital sigma, U+03A3, becomes
    the final sigma U+03C2 when a cased letter comes before it and none
    after it (characters that are case-ignorable skipped on both sides),
    and U+03C3 otherwise.  [greek_tables] are the tables of the interpreter
    on text made of ASCII characters and of the Greek letters U+0391 to
    U+03CE. *)

Definition greek_capital (c : char) : bool :=
  ((913 <=? c) && (c <=? 939) && negb (c =? 930))%N.

Definition greek_cased (c : char) : bool :=
  ((65 <=? c) && (c <=? 90) || (97 <=? c) && (c <=? 122))%N
  || greek_capital c
  || ((940 <=? c) && (c <=? 974))%N.

(** The ASCII characters that are case-ignorable: ['], [.], [:], [^] and
    the grave accent. *)
Definition ascii_case_ignorable (c : char) : bool :=
  ((c =? 39) || (c =? 46) || (c =? 58) || (c =? 94) || (c =? 96))%N.

(** The first character of [s] that is not case-ignorable is cased. *)
Fixpoint next_is_cased (s : pystr) : bool :=
  match s with
  | [] => false
  | c :: s' => if ascii_case_ignorable c then next_is_cased s'
               else greek_cased c
  end.

(** [before] is what comes before [s] in the string, nearest first. *)
Fixpoint greek_lower_from (before s : pystr) : pystr :=
  match s with
  | [] => []
  | c :: s' =>
      (if (c =? 931)%N
       then (if next_is_cased before && negb (next_is_cased s')
             then 962%N else 963%N)
       else if greek_capital c then (c + 32)%N
       else ascii_lower c)
      :: greek_lower_from (c :: before) s'
  end.

Definition greek_lower (s : pystr) : pystr := greek_lower_from [] s.

Definition greek_tables : UnicodeTables := {|
  str_lower := greek_lower;
  re_decimal := ascii_digit
|}.

(** * Properties *)

(** ** Strings *)

Lemma str_eqb_eq (a b : pystr) : str_eqb a b = true <-> a = b.
Proof.
  revert b; induction a as [|x a IH]; intros [|y b]; simpl;
    try (split; [discriminate | congruence]); try tauto.
  rewrite andb_true_iff, N.eqb_eq, IH.
  split; [intros [-> ->]; reflexivity | intros H; inversion H; auto].
Qed.

Lemma str_eqb_refl (a : pystr) : str_eqb a a = true.
Proof. apply str_eqb_eq; reflexivity. Qed.

Lemma str_mem_In (x : pystr) (xs : list pystr) :
  str_mem x xs = true <-> In x xs.
Proof.
  unfold str_mem; rewrite existsb_exists; split.
  - intros (y & Hy & E); apply str_eqb_eq in E; subst; assumption.
  - intros H; exists x; split; [assumption | apply str_eqb_refl].
Qed.

Lemma starts_with_prefix (p s : pystr) :
  starts_with p s = true <-> exists post, s = p ++ post.
Proof.
  revert s; induction p as [|x p IH]; intros s; simpl.
  - split; [intros _; exists s; reflexivity | reflexivity].
  - destruct s as [|y s].
    + split; [discriminate | intros [post H]; discriminate].
    + rewrite andb_true_iff, N.eqb_eq, IH; split.
      * intros [-> [post ->]]; exists post; reflexivity.
      * intros [post H]; inversion H; subst; split; [reflexivity | eauto].
Qed.

Lemma str_in_occurs (t s : pystr) : str_in t s = true <-> occurs t s.
Proof.
  unfold occurs; induction s as [|c s IH]; simpl.
  - rewrite orb_false_r, starts_with_prefix; split.
    + intros [post H]; exists [], post; assumption.
    + intros (pre & post & H).
      destruct pre; [exists post; assumption | discriminate].
  - rewrite orb_true_iff, starts_with_prefix, IH; split.
    + intros [[post H] | (pre & post & H)].
      * exists [], post; assumption.
      * exists (c :: pre), post; simpl; congruence.
    + intros ([|x pre] & post & H); simpl in H.
      * left; exists post; assumption.
      * right; exists pre, post; congruence.
Qed.

Lemma lstrip_length (s : pystr) : List.length (lstrip s) <= List.length s.
Proof.
  induction s as [|c s IH]; simpl; [lia|].
  destruct (isspace c); simpl; lia.
Qed.

Lemma rstrip_length (s : pystr) : List.length (rstrip s) <= List.length s.
Proof.
  unfold rstrip; rewrite length_rev.
  rewrite <- (length_rev s); apply lstrip_length.
Qed.

Lemma lstrip_blank (s : pystr) : forallb isspace s = true -> lstrip s = [].
Proof.
  induction s as [|c s IH]; simpl; [reflexivity|].
  rewrite andb_true_iff; intros [-> H]; auto.
Qed.

Lemma strip_blank (s : pystr) : forallb isspace s = true -> strip s = [].
Proof. intros H; unfold strip; rewrite (lstrip_blank s H); reflexivity. Qed.

Lemma slice_to_length (k : Z) (s : pystr) :
  (0 <= k)%Z -> (Z.of_nat (List.length (slice_to k s)) <= k)%Z.
Proof.
  intros Hk; unfold slice_to.
  destruct (Z.ltb_spec k 0); [lia|].
  rewrite length_firstn; lia.
Qed.

(** ** Regular expressions *)

Lemma in_flat_map_ext {A B} (f g : A -> list B) (l : list A) :
  (forall a, In a l -> f a = g a) -> flat_map f l = flat_map g l.
Proof.
  induction l as [|a l IH]; intros H; simpl; [reflexivity|].
  rewrite (H a (or_introl eq_refl)), IH; [reflexivity|].
  intros b Hb; apply H; right; exact Hb.
Qed.

Lemma rep_no_longer (m : pystr -> list pystr) :
  (forall s s', In s' (m s) -> List.length s' <= List.length s) ->
  forall fuel lo hi s s',
    In s' (rep m fuel lo hi s) -> List.length s' <= List.length s.
Proof.
  intros Hm; induction fuel as [|fuel IH]; intros lo hi s s'; simpl.
  - destruct (Nat.eqb lo 0); simpl; [intros [<- | []]; lia | tauto].
  - assert (Hstop : In s' (if Nat.eqb lo 0 then [s] else []) ->
                    List.length s' <= List.length s)
      by (destruct (Nat.eqb lo 0); simpl; [intros [<- | []]; lia | tauto]).
    destruct hi as [[|h]|]; auto; rewrite in_app_iff, in_flat_map;
      (intros [(s1 & H1 & H2) | H]; [|auto]);
      specialize (Hm _ _ H1); specialize (IH _ _ _ _ H2); lia.
Qed.

Lemma rmatch_no_longer (r : regex) :
  forall s s', In s' (rmatch r s) -> List.length s' <= List.length s.
Proof.
  induction r as [p | r1 IH1 r2 IH2 | r IH lo hi]; intros s s';
    cbn [rmatch].
  - destruct s as [|c s]; simpl; [tauto|].
    destruct (p c); simpl; [intros [<- | []]; lia | tauto].
  - rewrite in_flat_map; intros (s1 & H1 & H2).
    specialize (IH1 _ _ H1); specialize (IH2 _ _ H2); lia.
  - apply rep_no_longer; exact IH.
Qed.

Lemma rep_advances (m : pystr -> list pystr) :
  (forall s s', In s' (m s) -> List.length s' < List.length s) ->
  forall fuel lo hi s s',
    lo <> 0 -> In s' (rep m fuel lo hi s) -> List.length s' < List.length s.
Proof.
  intros Hm fuel lo hi s s' Hlo.
  assert (Hle : forall s s', In s' (m s) -> List.length s' <= List.length s)
    by (intros a b H; specialize (Hm a b H); lia).
  apply Nat.eqb_neq in Hlo.
  destruct fuel as [|fuel]; simpl; rewrite Hlo; simpl; [tauto|].
  destruct hi as [[|h]|]; simpl; try tauto; rewrite app_nil_r, in_flat_map;
    intros (s1 & H1 & H2); specialize (Hm _ _ H1);
    pose proof (rep_no_longer m Hle _ _ _ _ _ H2); lia.
Qed.

Lemma rmatch_advances (r : regex) :
  advances r = true ->
  forall s s', In s' (rmatch r s) -> List.length s' < List.length s.
Proof.
  induction r as [p | r1 IH1 r2 IH2 | r IH lo hi]; simpl; intros Ha s s'.
  - destruct s as [|c s]; simpl; [tauto|].
    destruct (p c); simpl; [intros [<- | []]; lia | tauto].
  - rewrite in_flat_map; intros (s1 & H1 & H2).
    pose proof (rmatch_no_longer r1 _ _ H1).
    pose proof (rmatch_no_longer r2 _ _ H2).
    apply orb_true_iff in Ha; destruct Ha as [Ha | Ha].
    + specialize (IH1 Ha _ _ H1); lia.
    + specialize (IH2 Ha _ _ H2); lia.
  - apply andb_true_iff in Ha; destruct Ha as [Hlo Ha].
    intros Hin.
    apply (@rep_advances (rmatch r) (IH Ha) (S (List.length s)) lo hi s s');
      [|exact Hin].
    destruct lo; discriminate.
Qed.

Lemma rep_fuel (m : pystr -> list pystr) :
  (forall s s', In s' (m s) -> List.length s' < List.length s) ->
  forall fuel1 fuel2 lo hi s,
    List.length s < fuel1 -> List.length s < fuel2 ->
    rep m fuel1 lo hi s = rep m fuel2 lo hi s.
Proof.
  intros Hm; induction fuel1 as [|fuel1 IH]; intros fuel2 lo hi s H1 H2;
    [lia|].
  destruct fuel2 as [|fuel2]; [lia|]; simpl.
  destruct hi as [[|h]|]; try reflexivity; f_equal;
    apply in_flat_map_ext; intros s1 Hs1; specialize (Hm _ _ Hs1);
    apply IH; lia.
Qed.

(** Greedy repetition as the engine runs it: one more turn of the body
    first, then the rest of the pattern from here; the bound on the turns in
    [rmatch] is never reached. *)
Lemma rmatch_rep (r : regex) (lo : nat) (hi : option nat) (s : pystr) :
  advances r = true ->
  rmatch (Rep r lo hi) s
  = match hi with
    | Some O => if Nat.eqb lo 0 then [s] else []
    | _ => flat_map (rmatch (Rep r (Nat.pred lo) (option_map Nat.pred hi)))
             (rmatch r s)
           ++ (if Nat.eqb lo 0 then [s] else [])
    end.
Proof.
  intros Ha; pose proof (rmatch_advances r Ha) as Hm.
  assert (E : forall lo' hi' s1,
             In s1 (rmatch r s) ->
             rep (rmatch r) (List.length s) lo' hi' s1
             = rmatch (Rep r lo' hi') s1).
  { intros lo' hi' s1 H1; pose proof (Hm _ _ H1) as Hlt.
    exact (@rep_fuel (rmatch r) Hm (List.length s) (S (List.length s1))
             lo' hi' s1 Hlt (Nat.lt_succ_diag_r _)). }
  change (rmatch (Rep r lo hi) s)
    with (rep (rmatch r) (S (List.length s)) lo hi s).
  cbn [rep].
  destruct hi as [[|h]|]; try reflexivity; f_equal;
    apply in_flat_map_ext; intros s1 Hs1; apply E; exact Hs1.
Qed.

Lemma DOMAIN_RE_guarded (U : UnicodeTables) :
  guarded DOMAIN_RE_host = true /\ guarded DOMAIN_RE_port = true.
Proof. split; reflexivity. Qed.

Lemma rmatch_opt_nonempty (r : regex) (s : pystr) : rmatch (Opt r) s <> [].
Proof.
  unfold Opt; cbn [rmatch rep Nat.eqb].
  destruct (flat_map _ _); discriminate.
Qed.

(** What follows the group of [DOMAIN_RE] is optional: it decides neither
    whether the pattern matches nor the text of the group, and so the class
    [\d] does not either. *)
Lemma match_group_optional_rest (group rest : regex) (s : pystr) :
  match_group group (Opt rest) s
  = match rmatch group s with
    | s1 :: _ => Some (firstn (List.length s - List.length s1) s)
    | [] => None
    end.
Proof.
  unfold match_group.
  destruct (rmatch group s) as [|s1 l]; [reflexivity|]; cbn [flat_map].
  pose proof (rmatch_opt_nonempty rest s1) as H.
  destruct (rmatch (Opt rest) s1); [congruence | reflexivity].
Qed.

Lemma DOMAIN_RE_search_tables (U1 U2 : UnicodeTables) (title : pystr) :
  @DOMAIN_RE_search U1 title = @DOMAIN_RE_search U2 title.
Proof.
  unfold DOMAIN_RE_search, DOMAIN_RE_port.
  induction title as [|c title IH]; cbn [search_group];
    rewrite !match_group_optional_rest; [reflexivity|].
  destruct (rmatch DOMAIN_RE_host (c :: title)); [exact IH | reflexivity].
Qed.

(** ** The sanitizer *)

Lemma sanitize_blank (title : pystr) (max_len : Z) :
  forallb isspace title = true -> (0 <= max_len)%Z ->
  sanitize_title_to_short_label title max_len = SAFE_IDLE_MESSAGE.
Proof.
  intros H Hm; unfold sanitize_title_to_short_label.
  rewrite (strip_blank title H); simpl.
  destruct (Z.gtb_spec 0 max_len); [lia | reflexivity].
Qed.

Lemma sanitize_length (title : pystr) (max_len : Z) :
  (4 <= max_len)%Z ->
  (Z.of_nat (List.length (sanitize_title_to_short_label title max_len))
   <= max_len)%Z.
Proof.
  intros Hm; unfold sanitize_title_to_short_label.
  set (t := sub_ws (strip title)).
  destruct (Z.gtb_spec (Z.of_nat (List.length t)) max_len) as [Hlong | Hshort].
  - pose proof (rstrip_length (slice_to (max_len - 1) t)) as Hr.
    pose proof (@slice_to_length (max_len - 1) t ltac:(lia)) as Hs.
    destruct (rstrip (slice_to (max_len - 1) t) ++ [ELLIPSIS]) eqn:E.
    + destruct (rstrip (slice_to (max_len - 1) t)); discriminate.
    + rewrite <- E, length_app; simpl; lia.
  - destruct t; simpl in *; lia.
Qed.

Lemma sanitize_nonempty (title : pystr) (max_len : Z) :
  sanitize_title_to_short_label title max_len <> [].
Proof.
  unfold sanitize_title_to_short_label.
  destruct (if (_ >? _)%Z then _ else _); discriminate.
Qed.

(** ** The classifier *)

Lemma app_key_not_browser (exe label : pystr) :
  dict_get APP_MAP exe = Some label -> str_mem exe BROWSERS = false.
Proof.
  unfold APP_MAP; simpl.
  repeat match goal with
         | |- context [str_eqb exe ?k] =>
             let E := fresh "E" in
             destruct (str_eqb exe k) eqn:E;
             [apply str_eqb_eq in E; subst exe; intros _; vm_compute; reflexivity|]
         end.
  discriminate.
Qed.

Section ClassifierFacts.

Context {U : UnicodeTables}.

Lemma sensitive_term_found (terms : list pystr) (title t : pystr) :
  In t terms -> t <> [] -> occurs t (str_lower title) ->
  title_has_sensitive_term terms title = true.
Proof.
  intros Hin Hne Hocc; unfold title_has_sensitive_term.
  apply existsb_exists; exists t; split; [assumption|].
  destruct t; [congruence | apply str_in_occurs; assumption].
Qed.


(** C2, amended.  With no sensitive term in the title: an empty title
    gives [SAFE_IDLE_MESSAGE] for every executable; a title of whitespace
    only is not empty for the test [not title], and gives
    [SAFE_IDLE_MESSAGE] when the executable is neither a browser nor a key
    of [APP_MAP], through the sanitizer's fallback for an empty result. *)
Theorem blank_title_idle (terms : list pystr) (title exe : pystr) :
  title_has_sensitive_term terms title = false ->
  (title = [] -> derive_label terms title exe = (SAFE_IDLE_MESSAGE, None))
  /\ (forallb isspace title = true ->
      str_mem exe BROWSERS = false ->
      dict_get APP_MAP exe = None ->
      derive_label terms title exe = (SAFE_IDLE_MESSAGE, None)).
Proof.
  intros Hclean; unfold derive_label; rewrite Hclean; split.
  - intros ->; reflexivity.
  - intros Hblank Hb Hm; rewrite Hb, Hm.
    rewrite (sanitize_blank title Hblank) by lia.
    destruct title; reflexivity.
Qed.

(** C3, amended.  For a non-empty title with no sensitive term and no
    host name in it, and a browser executable, the label is ["Browsing "]
    followed by the sanitized title; the sanitized title is non-empty and
    at most 40 code points long, the ellipsis counted, so that the whole
    label is at most 49 code points long. *)
Theorem browser_fallback_label (terms : list pystr) (title exe : pystr) :
  title <> [] ->
  title_has_sensitive_term terms title = false ->
  In exe BROWSERS ->
  DOMAIN_RE_search title = None ->
  derive_label terms title exe
  = (lit "Browsing " ++ sanitize_title_to_short_label title 40, None)
  /\ 1 <= List.length (sanitize_title_to_short_label title 40) <= 40
  /\ List.length (fst (derive_label terms title exe)) <= 49.
Proof.
  intros Hne Hclean Hb Hhost.
  assert (E : derive_label terms title exe
              = (lit "Browsing " ++ sanitize_title_to_short_label title 40,
                 None)).
  { unfold derive_label; rewrite Hclean.
    destruct title; [congruence|].
    apply str_mem_In in Hb; rewrite Hb, Hhost; reflexivity. }
  pose proof (@sanitize_length title 40 ltac:(lia)) as Hlen.
  pose proof (@sanitize_nonempty title 40) as Hn.
  rewrite E; unfold fst.
  rewrite length_app; change (List.length (lit "Browsing ")) with 9.
  split; [reflexivity|].
  destruct (sanitize_title_to_short_label title 40) as [|c l];
    [congruence|].
  cbn [List.length] in *; lia.
Qed.

(** C9, amended.  For a non-empty title with no sensitive term and an
    executable that is a key of [APP_MAP] (no key is a browser), the
    label is the mapped label itself and there is no image key: the
    result is the same for every such title. *)
Theorem mapped_label_verbatim (terms : list pystr) (title exe label : pystr) :
  title <> [] ->
  title_has_sensitive_term terms title = false ->
  dict_get APP_MAP exe = Some label ->
  str_mem exe BROWSERS = false
  /\ derive_label terms title exe = (label, None).
Proof.
  intros Hne Hclean Hm.
  pose proof (app_key_not_browser exe Hm) as Hb; split; [assumption|].
  unfold derive_label; rewrite Hclean, Hb, Hm.
  destruct title; [congruence | reflexivity].
Qed.

End ClassifierFacts.

(** ** The order of strings and [sorted(set(...))] *)

Lemma str_compare_eq (a b : pystr) : str_compare a b = Eq <-> a = b.
Proof.
  revert b; induction a as [|x a IH]; intros [|y b]; simpl;
    try (split; [discriminate | congruence]); try tauto.
  destruct (N.compare_spec x y) as [-> | H | H].
  - rewrite IH; split; [congruence | intros E; inversion E; reflexivity].
  - split; [discriminate | intros E; inversion E; lia].
  - split; [discriminate | intros E; inversion E; lia].
Qed.

Lemma str_compare_antisym (a b : pystr) :
  str_compare b a = CompOpp (str_compare a b).
Proof.
  revert b; induction a as [|x a IH]; intros [|y b]; simpl; try reflexivity.
  rewrite (N.compare_antisym x y).
  destruct (N.compare x y); simpl; auto.
Qed.

Lemma str_lt_trans (a b c : pystr) : str_lt a b -> str_lt b c -> str_lt a c.
Proof.
  unfold str_lt; revert b c; induction a as [|x a IH]; intros [|y b] [|z c];
    simpl; try discriminate; try reflexivity.
  destruct (N.compare_spec x y) as [-> | Hxy | Hxy]; try discriminate.
  - destruct (N.compare z y) eqn:Ezy; rewrite (N.compare_antisym z y), Ezy;
      simpl; try discriminate; eauto.
  - intros _.
    destruct (N.compare_spec y z) as [-> | Hyz | Hyz]; try discriminate;
      intros _.
    + apply N.compare_lt_iff in Hxy; rewrite Hxy; reflexivity.
    + assert (H : (x < z)%N) by lia.
      apply N.compare_lt_iff in H; rewrite H; reflexivity.
Qed.

Lemma insert_uniq_In (x t : pystr) (l : list pystr) :
  In t (insert_uniq x l) <-> t = x \/ In t l.
Proof.
  induction l as [|y l IH]; simpl; [intuition congruence|].
  destruct (str_compare x y) eqn:E; simpl.
  - apply str_compare_eq in E; subst; intuition congruence.
  - intuition congruence.
  - rewrite IH; intuition congruence.
Qed.

Lemma sorted_set_In (t : pystr) (xs : list pystr) :
  In t (sorted_set xs) <-> In t xs.
Proof.
  induction xs as [|x xs IH]; simpl; [tauto|].
  rewrite insert_uniq_In, IH; intuition congruence.
Qed.

Lemma insert_uniq_sorted (x : pystr) (l : list pystr) :
  StronglySorted str_lt l -> StronglySorted str_lt (insert_uniq x l).
Proof.
  induction 1 as [|y l Hs IH Hy]; simpl.
  - repeat constructor.
  - destruct (str_compare x y) eqn:E.
    + constructor; assumption.
    + constructor; [constructor; assumption|].
      constructor; [exact E|].
      rewrite Forall_forall in *; intros z Hz.
      apply (@str_lt_trans x y z); [exact E | auto].
    + constructor; [assumption|].
      rewrite Forall_forall in *; intros z Hz.
      apply insert_uniq_In in Hz; destruct Hz as [-> | Hz]; [|auto].
      unfold str_lt; rewrite str_compare_antisym, E; reflexivity.
Qed.

Lemma sorted_set_sorted (xs : list pystr) :
  StronglySorted str_lt (sorted_set xs).
Proof.
  induction xs; simpl; [constructor | apply insert_uniq_sorted; assumption].
Qed.

Lemma strip_nil : strip [] = [].
Proof. reflexivity. Qed.

(** ** The term set *)

Section TermSet.

Context {U : UnicodeTables}.

(** C4, amended.  The stored terms are strictly increasing, hence
    distinct.  For a value of [MASK_TERMS] that is not blank, they are
    the entries between the commas, trimmed, the empty ones dropped,
    lowercased (twice: when collected and when stored).  The built-in
    defaults are used when [MASK_TERMS] is unset, empty or blank; a value
    that is not blank and whose entries are all blank, such as [",,,"],
    leaves the set empty. *)
Theorem parse_mask_terms_spec (v : option pystr) :
  StronglySorted str_lt (parse_mask_terms v)
  /\ (forall raw, v = Some raw -> strip raw <> [] ->
      (forall t, In t (parse_mask_terms v) <->
                 exists e, In e (split 44%N raw) /\ strip e <> []
                           /\ t = str_lower (str_lower (strip e)))
      /\ ((forall e, In e (split 44%N raw) -> strip e = []) ->
          parse_mask_terms v = []))
  /\ ((v = None \/ exists raw, v = Some raw /\ strip raw = []) ->
      parse_mask_terms v
      = sorted_set (List.map str_lower DEFAULT_SENSITIVE_TERMS)).
Proof.
  split; [apply sorted_set_sorted|]; split.
  - intros raw -> Hraw.
    assert (Hmem : forall t, In t (parse_mask_terms (Some raw)) <->
              exists e, In e (split 44%N raw) /\ strip e <> []
                        /\ t = str_lower (str_lower (strip e))).
    { intros t; unfold parse_mask_terms, getenv_str.
      destruct (strip raw) as [|c0 r0] eqn:Es; [congruence|].
      destruct raw as [|c1 r1]; [discriminate|].
      rewrite sorted_set_In, in_map_iff; split.
      - intros (x & <- & Hx); apply in_flat_map in Hx.
        destruct Hx as (e & He & Hx); exists e.
        destruct (strip e) eqn:Ee; simpl in Hx; [tauto|].
        destruct Hx as [<- | []].
        split; [assumption|]; split; [discriminate | reflexivity].
      - intros (e & He & Hne & ->).
        exists (str_lower (strip e)); split; [reflexivity|].
        apply in_flat_map; exists e; split; [assumption|].
        destruct (strip e); [congruence | left; reflexivity]. }
    split; [exact Hmem|].
    intros Hall.
    destruct (parse_mask_terms (Some raw)) as [|t l] eqn:E; [reflexivity|].
    assert (Hin : In t (t :: l)) by (left; reflexivity).
    apply Hmem in Hin; destruct Hin as (e & He & Hne & _).
    elim Hne; auto.
  - intros [-> | (raw & -> & Hraw)]; unfold parse_mask_terms, getenv_str;
      [reflexivity | rewrite Hraw; reflexivity].
Qed.

End TermSet.

(** ** The session *)

Lemma sleeps_cons (ev : event) (tr : list event) :
  sleeps (ev :: tr)
  = sleeps tr ++ match ev with Sleep q => [q] | _ => [] end.
Proof.
  unfold sleeps; simpl; rewrite flat_map_app; simpl.
  rewrite app_nil_r; reflexivity.
Qed.

Section SessionFacts.

Variable ch : Channel.

Lemma connect_eq (s : State) :
  connect ch s
  = if is_ready s then (Ret tt, s)
    else
      let h := calls is_init (trace s) in
      match on_init ch h with
      | Some e => (Raise e, record (CallInit h) s)
      | None =>
          match on_connect ch (calls is_connect (trace s)) with
          | Some e =>
              (Raise e,
               record (CallConnect h)
                 (with_rpc (Some h) (record (CallInit h) s)))
          | None => (Ret tt, connected_anew s)
          end
      end.
Proof.
  unfold connect, bind, get_self, is_ready; cbn.
  destruct (_connected (self s) && negb (is_none (_rpc (self s))));
    [reflexivity|].
  unfold Presence, channel_call; cbn.
  destruct (on_init ch _); [reflexivity|]; cbn.
  destruct (on_connect ch _); reflexivity.
Qed.

Lemma update_eq (state : pystr) (large_image : option pystr) (s : State) :
  update ch state large_image s
  = match (if is_ready s then (Ret tt, s) else connect ch s) with
    | (Ret _, s1) =>
        match _rpc (self s1) with
        | None => (Raise AssertionError, s1)
        | Some h =>
            channel_call (on_update ch) is_update
              (CallUpdate h state (payload_image large_image)) s1
        end
    | (Raise e, s1) => (Raise e, s1)
    end.
Proof.
  destruct s as [[id rpc conn] tr].
  unfold update, bind, get_self, is_ready; cbn.
  destruct conn, rpc as [h|]; cbn; try reflexivity;
    match goal with
    | |- (let (_, _) := ?m ?s0 in _) = _ =>
        destruct (m s0) as [[[]|e] s1]; cbn; [|reflexivity];
        destruct (_rpc (self s1)); reflexivity
    end.
Qed.

Lemma turn_returns (state : pystr) (large_image : option pystr)
    (backoff : Q) (s s1 : State) :
  update ch state large_image s = (Ret tt, s1) ->
  safe_update_turn ch state large_image backoff s = (Ret None, s1).
Proof.
  intros H; unfold safe_update_turn, try_except, bind; rewrite H.
  reflexivity.
Qed.

Lemma turn_invalid_id (state : pystr) (large_image : option pystr)
    (backoff : Q) (s s1 : State) :
  update ch state large_image s = (Raise InvalidID, s1) ->
  safe_update_turn ch state large_image backoff s
  = (Raise InvalidID, record (Log ERROR) s1).
Proof.
  intros H; unfold safe_update_turn, try_except, bind; rewrite H.
  reflexivity.
Qed.

Lemma turn_pipe_failure (state : pystr) (large_image : option pystr)
    (backoff : Q) (s s1 : State) (e : exn) :
  update ch state large_image s = (Raise e, s1) ->
  is_pipe_error e = true ->
  safe_update_turn ch state large_image backoff s
  = match connect ch (backing_off backoff s1) with
    | (Ret _, s3) => (Ret (Some (Qmin 16 (backoff * 2))%Q), s3)
    | (Raise e', s3) =>
        match e' with
        | InvalidID | InvalidPipe | ConnectionRefusedError =>
            (Ret (Some (Qmin 16 (backoff * 2))%Q), s3)
        | _ => (Raise e', s3)
        end
    end.
Proof.
  intros H He; unfold safe_update_turn, try_except, bind; rewrite H.
  unfold backing_off.
  destruct e; try discriminate;
    cbv [bind set_connected log sleep emit try_except ret raise];
    destruct (connect ch _) as [[[]|e'] s3]; try reflexivity;
    destruct e'; reflexivity.
Qed.

Lemma turn_other_failure (state : pystr) (large_image : option pystr)
    (backoff : Q) (s s1 : State) (e : exn) :
  update ch state large_image s = (Raise e, s1) ->
  is_pipe_error e = false -> e <> InvalidID ->
  safe_update_turn ch state large_image backoff s
  = (Ret (Some (Qmin 16 (backoff * (3 # 2)))%Q),
     record (Sleep backoff) (record (Log WARNING) s1)).
Proof.
  intros H He Hid; unfold safe_update_turn, try_except, bind; rewrite H.
  destruct e; try discriminate; try congruence; reflexivity.
Qed.

End SessionFacts.

Ltac state_simpl :=
  cbn [trace self _rpc _connected client_id connected_anew backing_off
       record with_connected with_rpc].

Section Reachable.

Variable ch : Channel.
Hypothesis init_ok : forall k, on_init ch k = None.
Hypothesis connect_ok : forall k, on_connect ch k = None.

Lemma connect_ensures (s : State) : connect ch s = (Ret tt, ensured s).
Proof.
  rewrite connect_eq; unfold ensured.
  destruct (is_ready s); [reflexivity|]; cbn.
  rewrite init_ok, connect_ok; reflexivity.
Qed.

Lemma ensured_ready (s : State) : is_ready (ensured s) = true.
Proof.
  unfold ensured; destruct (is_ready s) eqn:E; [exact E | reflexivity].
Qed.

Lemma ensured_calls_update (s : State) :
  calls is_update (trace (ensured s)) = calls is_update (trace s).
Proof. unfold ensured; destruct (is_ready s); reflexivity. Qed.

Lemma ensured_sleeps (s : State) :
  sleeps (trace (ensured s)) = sleeps (trace s).
Proof.
  unfold ensured; destruct (is_ready s); [reflexivity|]; state_simpl.
  rewrite !sleeps_cons, !app_nil_r; reflexivity.
Qed.

Lemma ensured_calls_connect (s : State) :
  calls is_connect (trace (ensured s))
  = (if is_ready s then 0 else 1) + calls is_connect (trace s).
Proof. unfold ensured; destruct (is_ready s); reflexivity. Qed.

Lemma update_calls_channel (state : pystr) (large_image : option pystr)
    (s : State) :
  exists h,
    update ch state large_image s
    = (match on_update ch (calls is_update (trace s)) with
       | None => Ret tt
       | Some e => Raise e
       end,
       record (CallUpdate h state (payload_image large_image)) (ensured s)).
Proof.
  rewrite update_eq.
  replace (if is_ready s then (Ret tt, s) else connect ch s)
    with (@Ret unit tt, ensured s)
    by (rewrite connect_ensures; unfold ensured;
        destruct (is_ready s); reflexivity).
  pose proof (ensured_ready s) as R; unfold is_ready in R.
  apply andb_true_iff in R; destruct R as [_ R].
  destruct (_rpc (self (ensured s))) as [h|]; [|discriminate].
  exists h; unfold channel_call; rewrite ensured_calls_update.
  destruct (on_update ch _); reflexivity.
Qed.

(** A turn whose update fails with a pipe error: sleep, reconnect, go on
    with the backoff doubled. *)
Lemma turn_reconnects (state : pystr) (large_image : option pystr)
    (backoff : Q) (s : State) (e : exn) :
  on_update ch (calls is_update (trace s)) = Some e ->
  is_pipe_error e = true ->
  exists s',
    safe_update_turn ch state large_image backoff s
    = (Ret (Some (Qmin 16 (backoff * 2))%Q), s')
    /\ is_ready s' = true
    /\ sleeps (trace s') = sleeps (trace s) ++ [backoff]
    /\ calls is_update (trace s') = 1 + calls is_update (trace s)
    /\ calls is_connect (trace s')
       = (if is_ready s then 1 else 2) + calls is_connect (trace s).
Proof.
  intros He Hp.
  destruct (update_calls_channel state large_image s) as [h Hu].
  rewrite He in Hu.
  rewrite (turn_pipe_failure _ _ _ backoff _ Hu Hp), connect_ensures.
  eexists; split; [reflexivity|].
  split; [apply ensured_ready|].
  assert (N : is_ready (backing_off backoff
            (record (CallUpdate h state (payload_image large_image))
               (ensured s))) = false) by reflexivity.
  rewrite ensured_sleeps, ensured_calls_update, ensured_calls_connect, N.
  state_simpl.
  rewrite !sleeps_cons, !app_nil_r, ensured_sleeps.
  unfold calls; cbn [filter is_update is_connect List.length].
  fold (calls is_update (trace (ensured s))).
  fold (calls is_connect (trace (ensured s))).
  rewrite ensured_calls_update, ensured_calls_connect.
  destruct (is_ready s); repeat split; reflexivity.
Qed.

Lemma turn_succeeds (state : pystr) (large_image : option pystr)
    (backoff : Q) (s : State) :
  on_update ch (calls is_update (trace s)) = None ->
  exists s',
    safe_update_turn ch state large_image backoff s = (Ret None, s')
    /\ is_ready s' = true
    /\ sleeps (trace s') = sleeps (trace s)
    /\ calls is_update (trace s') = 1 + calls is_update (trace s)
    /\ calls is_connect (trace s')
       = (if is_ready s then 0 else 1) + calls is_connect (trace s).
Proof.
  intros He.
  destruct (update_calls_channel state large_image s) as [h Hu].
  rewrite He in Hu.
  rewrite (turn_returns _ _ _ backoff _ Hu).
  eexists; split; [reflexivity|].
  split; [exact (ensured_ready s)|].
  state_simpl.
  rewrite sleeps_cons, app_nil_r, ensured_sleeps.
  unfold calls; cbn [filter is_update is_connect List.length].
  fold (calls is_update (trace (ensured s))).
  fold (calls is_connect (trace (ensured s))).
  rewrite ensured_calls_update, ensured_calls_connect.
  repeat split; reflexivity.
Qed.

(** C6.  The channel can always be constructed and connected, and its
    [update] fails with a pipe error ([InvalidPipe] or
    [ConnectionRefusedError]) the first two times it is called and
    succeeds the third time.  Then [safe_update] returns normally on its
    third turn and not before (two turns of fuel do not end it, three or
    more do); the channel's [update] was attempted exactly 3 times; the
    sleeps were exactly 1 and then 2; the channel's [connect] was
    attempted 3 times from a session that was not connected (a new
    [PresenceClient]) and 2 times from a connected one; and the session
    ends connected. *)
Theorem safe_update_two_pipe_failures
    (state : pystr) (large_image : option pystr) (s : State) (e1 e2 : exn) :
  on_update ch (calls is_update (trace s)) = Some e1 ->
  is_pipe_error e1 = true ->
  on_update ch (1 + calls is_update (trace s)) = Some e2 ->
  is_pipe_error e2 = true ->
  on_update ch (2 + calls is_update (trace s)) = None ->
  exists s',
    safe_update ch 2 state large_image s = None
    /\ (forall n, safe_update ch (3 + n) state large_image s
                  = Some (Ret tt, s'))
    /\ sleeps (trace s') = sleeps (trace s) ++ [1; 2]%Q
    /\ calls is_update (trace s') = 3 + calls is_update (trace s)
    /\ calls is_connect (trace s')
       = (if is_ready s then 2 else 3) + calls is_connect (trace s)
    /\ _connected (self s') = true.
Proof.
  intros H1 P1 H2 P2 H3.
  destruct (turn_reconnects state large_image 1 s H1 P1)
    as (s1 & T1 & R1 & Z1 & U1 & C1).
  rewrite <- U1 in H2.
  destruct (turn_reconnects state large_image (Qmin 16 (1 * 2)) s1 H2 P2)
    as (s2 & T2 & R2 & Z2 & U2 & C2).
  assert (H3' : on_update ch (calls is_update (trace s2)) = None)
    by (rewrite U2, U1; exact H3).
  destruct (turn_succeeds state large_image
              (Qmin 16 (Qmin 16 (1 * 2) * 2)) s2 H3')
    as (s3 & T3 & R3 & Z3 & U3 & C3).
  exists s3; unfold safe_update; cbn [safe_update_loop Nat.add].
  rewrite T1, T2, T3.
  split; [reflexivity|].
  split; [reflexivity|].
  split; [rewrite Z3, Z2, Z1, <- app_assoc; reflexivity|].
  split; [rewrite U3, U2, U1; reflexivity|].
  split.
  - rewrite C3, C2, C1, R1, R2; destruct (is_ready s); reflexivity.
  - unfold is_ready in R3; apply andb_true_iff in R3; tauto.
Qed.

End Reachable.

Section SessionTheorems.

Variable ch : Channel.

(** C5, amended.  At any turn of the loop in [safe_update]: when the
    update call, with the connect it makes for a session that is not
    connected, raises [InvalidID], [safe_update] logs one error and
    raises [InvalidID] to its caller, with no sleep and no further call
    after the failed one; when the update call raises a pipe error and
    the reconnect attempt of its handler raises [InvalidID], that
    exception is caught there and the loop goes on with its next turn. *)
Theorem invalid_id_in_safe_update
    (state : pystr) (large_image : option pystr) (backoff : Q)
    (s : State) (fuel : nat) :
  (forall s1,
      update ch state large_image s = (Raise InvalidID, s1) ->
      safe_update_loop ch (S fuel) state large_image backoff s
      = Some (Raise InvalidID, record (Log ERROR) s1))
  /\ (forall e s1 s3,
         update ch state large_image s = (Raise e, s1) ->
         is_pipe_error e = true ->
         connect ch (backing_off backoff s1) = (Raise InvalidID, s3) ->
         safe_update_loop ch (S fuel) state large_image backoff s
         = safe_update_loop ch fuel state large_image
             (Qmin 16 (backoff * 2))%Q s3).
Proof.
  split.
  - intros s1 H; cbn [safe_update_loop].
    rewrite (turn_invalid_id _ _ _ backoff _ H); reflexivity.
  - intros e s1 s3 H Hp Hc; cbn [safe_update_loop].
    rewrite (turn_pipe_failure _ _ _ backoff _ H Hp), Hc; reflexivity.
Qed.

Lemma close_eq (s : State) :
  close ch s
  = let reset s1 :=
      record (Log DEBUG) (with_connected false (with_rpc None s1)) in
    match _rpc (self s) with
    | None => (Ret tt, reset s)
    | Some h =>
        match on_clear ch (calls is_clear (trace s)) with
        | Some e => (Raise e, reset (record (CallClear h) s))
        | None =>
            match on_close ch (calls is_close (trace s)) with
            | Some e =>
                (Raise e,
                 reset (record (CallClose h) (record (CallClear h) s)))
            | None =>
                (Ret tt,
                 reset (record (CallClose h) (record (CallClear h) s)))
            end
        end
    end.
Proof.
  unfold close, try_finally, bind, get_self, channel_call; cbn.
  destruct (_rpc (self s)) as [h|]; [|reflexivity].
  destruct (on_clear ch _); [reflexivity|]; cbn.
  destruct (on_close ch _); reflexivity.
Qed.

Lemma close_resets (s : State) :
  _rpc (self (snd (close ch s))) = None
  /\ _connected (self (snd (close ch s))) = false
  /\ calls is_init (trace (snd (close ch s))) = calls is_init (trace s).
Proof.
  rewrite close_eq; cbv zeta.
  destruct (_rpc (self s)) as [h|]; [|repeat split].
  destruct (on_clear ch _); [repeat split|].
  destruct (on_close ch _); repeat split.
Qed.

(** C7, amended.  [close] always leaves the session disconnected, with
    no channel object.  It raises exactly when the channel's [clear], or
    after it the channel's [close], raises: the exception leaves
    [close] once the fields are reset.  The caller in [main] runs
    [close] under [except Exception: pass], which returns normally with
    the same final state.  A later [connect] is valid: if the channel can
    be constructed and connected, it leaves the session connected to a
    new channel object. *)
Theorem close_teardown (s : State) :
  let r := fst (close ch s) in
  let s' := snd (close ch s) in
  _rpc (self s') = None /\ _connected (self s') = false
  /\ (forall e,
         r = Raise e <->
         exists h, _rpc (self s) = Some h
           /\ (on_clear ch (calls is_clear (trace s)) = Some e
               \/ on_clear ch (calls is_clear (trace s)) = None
                  /\ on_close ch (calls is_close (trace s)) = Some e))
  /\ main_finally ch s = (Ret tt, s')
  /\ (on_init ch (calls is_init (trace s')) = None ->
      on_connect ch (calls is_connect (trace s')) = None ->
      exists s'', connect ch s' = (Ret tt, s'')
                  /\ _connected (self s'') = true
                  /\ _rpc (self s'') = Some (calls is_init (trace s'))).
Proof.
  cbv zeta.
  destruct (close_resets s) as (Hr & Hc & _).
  split; [exact Hr|]; split; [exact Hc|]; split; [|split].
  - intros e; rewrite close_eq; cbv zeta.
    destruct (_rpc (self s)) as [h|]; cbn [fst].
    + destruct (on_clear ch _) as [e1|]; cbn [fst].
      * split; [intros E; inversion E; eauto|].
        intros (h' & _ & [E | [E _]]); congruence.
      * destruct (on_close ch _) as [e2|]; cbn [fst].
        -- split; [intros E; inversion E; eauto|].
           intros (h' & _ & [E | [_ E]]); congruence.
        -- split; [discriminate|].
           intros (h' & _ & [E | [_ E]]); discriminate.
    + split; [discriminate | intros (h' & E & _); discriminate].
  - unfold main_finally, try_except.
    destruct (close ch s) as [[[]|e] s1]; reflexivity.
  - intros Hi Hk; rewrite connect_eq.
    assert (N : is_ready (snd (close ch s)) = false)
      by (unfold is_ready; rewrite Hc; reflexivity).
    rewrite N; cbv zeta; rewrite Hi, Hk.
    eexists; split; [reflexivity|]; split; reflexivity.
Qed.

(** C10.  Whatever the channel's [clear] and [close] do, [close] leaves
    [_rpc] at [None] and [_connected] at [False].  A later [connect]
    therefore does not return early: its first act is to construct a
    [Presence], whose handle differs from the one the session held
    before [close], and that new object is the one it connects and
    stores in [_rpc]. *)
Theorem close_resets_then_connect_constructs (s : State) :
  let s' := snd (close ch s) in
  let h' := calls is_init (trace s') in
  _rpc (self s') = None /\ _connected (self s') = false
  /\ (wf s -> forall h, _rpc (self s) = Some h -> h <> h')
  /\ exists evs,
       trace (snd (connect ch s')) = evs ++ CallInit h' :: trace s'
       /\ Forall (fun ev => ev = Log DEBUG \/ ev = CallConnect h') evs
       /\ (on_init ch h' = None -> _rpc (self (snd (connect ch s'))) = Some h').
Proof.
  cbv zeta.
  destruct (close_resets s) as (Hr & Hc & Hn).
  split; [exact Hr|]; split; [exact Hc|]; split.
  - intros Hwf h Hh; rewrite Hn; specialize (Hwf h Hh); lia.
  - rewrite connect_eq.
    assert (N : is_ready (snd (close ch s)) = false)
      by (unfold is_ready; rewrite Hc; reflexivity).
    rewrite N; cbv zeta.
    destruct (on_init ch _) as [e|].
    + exists []; repeat split; [constructor | discriminate].
    + destruct (on_connect ch _) as [e|].
      * eexists [_]; split; [reflexivity|]; split; [|reflexivity].
        constructor; [right; reflexivity | constructor].
      * eexists [_; _]; split; [reflexivity|]; split; [|reflexivity].
        constructor; [left; reflexivity|].
        constructor; [right; reflexivity | constructor].
Qed.

End SessionTheorems.

(** ** Handles stay within the constructions made *)

Lemma wf_new_client (id : pystr) : wf (new_client id).
Proof. intros h H; discriminate. Qed.

Lemma wf_record (ev : event) (s : State) : wf s -> wf (record ev s).
Proof.
  intros H h Hh; specialize (H h Hh); unfold calls in *; cbn.
  destruct (is_init ev); cbn; lia.
Qed.

Lemma wf_with_connected (b : bool) (s : State) :
  wf s -> wf (with_connected b s).
Proof. intros H h Hh; exact (H h Hh). Qed.

Lemma wf_connect (ch : Channel) (s : State) :
  wf s -> wf (snd (connect ch s)).
Proof.
  intros H; rewrite connect_eq.
  destruct (is_ready s); [exact H|]; cbv zeta.
  destruct (on_init ch _); [apply wf_record; exact H|].
  destruct (on_connect ch _); cbn [snd]; intros h Hh; cbn in Hh;
    inversion Hh; subst; unfold calls; cbn; lia.
Qed.

Lemma wf_close (ch : Channel) (s : State) : wf (snd (close ch s)).
Proof.
  intros h Hh; destruct (close_resets ch s) as (Hr & _); congruence.
Qed.

Lemma wf_update (ch : Channel) (state : pystr) (large_image : option pystr)
    (s : State) :
  wf s -> wf (snd (update ch state large_image s)).
Proof.
  intros H; rewrite update_eq.
  assert (W : wf (snd (if is_ready s then (@Ret unit tt, s) else connect ch s)))
    by (destruct (is_ready s); [exact H | apply wf_connect; exact H]).
  destruct (if is_ready s then _ else _) as [[[]|e] s1]; cbn [snd] in *;
    [|exact W].
  destruct (_rpc (self s1)); [|exact W].
  unfold channel_call; destruct (on_update ch _); apply wf_record; exact W.
Qed.

Lemma wf_turn (ch : Channel) (state : pystr) (large_image : option pystr)
    (backoff : Q) (s : State) :
  wf s -> wf (snd (safe_update_turn ch state large_image backoff s)).
Proof.
  intros H.
  pose proof (wf_update ch state large_image H) as W.
  destruct (update ch state large_image s) as [[[]|e] s1] eqn:E;
    cbn [snd] in W.
  - rewrite (turn_returns _ _ _ backoff _ E); exact W.
  - destruct (is_pipe_error e) eqn:P.
    + rewrite (turn_pipe_failure _ _ _ backoff _ E P).
      assert (W' : wf (backing_off backoff s1))
        by (unfold backing_off; repeat apply wf_record;
            apply wf_with_connected; exact W).
      pose proof (wf_connect ch W') as W''.
      destruct (connect ch (backing_off backoff s1)) as [[[]|e'] s3];
        cbn [snd] in W''; [exact W''|].
      destruct e'; exact W''.
    + destruct e; try discriminate.
      * rewrite (turn_invalid_id _ _ _ backoff _ E).
        apply wf_record; exact W.
      * rewrite (turn_other_failure _ _ _ backoff _ E P)
          by discriminate.
        repeat apply wf_record; exact W.
      * rewrite (turn_other_failure _ _ _ backoff _ E P)
          by discriminate.
        repeat apply wf_record; exact W.
Qed.

Lemma wf_safe_update_loop (ch : Channel) (state : pystr)
    (large_image : option pystr) (fuel : nat) :
  forall (backoff : Q) (s : State) (r : result unit) (s' : State),
    wf s ->
    safe_update_loop ch fuel state large_image backoff s = Some (r, s') ->
    wf s'.
Proof.
  induction fuel as [|fuel IH]; intros backoff s r s' H; cbn [safe_update_loop];
    [discriminate|].
  pose proof (wf_turn ch state large_image backoff H) as W.
  destruct (safe_update_turn ch state large_image backoff s)
    as [[[b|]|e] s1]; cbn [snd] in W.
  - apply IH; exact W.
  - intros E; inversion E; subst; exact W.
  - intros E; inversion E; subst; exact W.
Qed.

(** ** Concrete runs of the classifier and the term set *)

(** A browser title with a host name, here with a port. *)
Example derive_label_github :
  derive_label (parse_mask_terms None)
    (lit "GitHub - GitHub.com:443 - Firefox") (lit "firefox.exe")
  = (lit "Browsing github.com", None).
Proof. vm_compute. reflexivity. Qed.

(** C8.  With [MASK_TERMS="Foo, BAR"] the stored terms are exactly ["bar"]
    and ["foo"], in this order, and the title ["this has foo in it"] has a
    sensitive term; this holds for every interpreter whose [str.lower]
    lowers ASCII letters and leaves the other ASCII characters. *)
Theorem mask_terms_foo_bar (U : UnicodeTables) :
  lowers_ascii U ->
  parse_mask_terms (Some (lit "Foo, BAR")) = [lit "bar"; lit "foo"]
  /\ title_has_sensitive_term (parse_mask_terms (Some (lit "Foo, BAR")))
       (lit "this has foo in it") = true.
Proof.
  intros L.
  assert (E : parse_mask_terms (Some (lit "Foo, BAR"))
              = [lit "bar"; lit "foo"]).
  { change (parse_mask_terms (Some (lit "Foo, BAR")))
      with (sorted_set [str_lower (str_lower (lit "Foo"));
                        str_lower (str_lower (lit "BAR"))]).
    rewrite (L (lit "Foo") eq_refl), (L (lit "BAR") eq_refl).
    rewrite (L (List.map ascii_lower (lit "Foo")) eq_refl).
    rewrite (L (List.map ascii_lower (lit "BAR")) eq_refl).
    reflexivity. }
  split; [exact E|].
  rewrite E; unfold title_has_sensitive_term.
  rewrite (L (lit "this has foo in it") eq_refl); reflexivity.
Qed.

Lemma mask_terms_foo_bar_witness :
  @parse_mask_terms ascii_tables (Some (lit "Foo, BAR"))
  = [lit "bar"; lit "foo"]
  /\ @title_has_sensitive_term ascii_tables
       (@parse_mask_terms ascii_tables (Some (lit "Foo, BAR")))
       (lit "this has foo in it") = true.
Proof.
  apply (@mask_terms_foo_bar ascii_tables).
  intros s _; reflexivity.
Defined.


(** [greek_tables] lower ASCII text as every interpreter does. *)
Lemma greek_tables_lowers_ascii : lowers_ascii greek_tables.
Proof.
  intros s; unfold str_lower, greek_tables, greek_lower.
  generalize (@nil char); induction s as [|c s IH]; intros before;
    cbn [forallb greek_lower_from List.map]; [reflexivity|].
  rewrite andb_true_iff; intros [Hc Hs]; rewrite (IH _ Hs); f_equal.
  unfold is_ascii in Hc; apply N.ltb_lt in Hc.
  unfold greek_capital.
  destruct (N.eqb_spec c 931); [lia|].
  destruct (N.leb_spec 913 c); [lia | reflexivity].
Qed.


(** C2 as stated fails: a title of one space is whitespace only and has no
    sensitive term, yet a browser gets ["Browsing Idle"] and a mapped
    application its mapped label. *)
Lemma whitespace_title_not_idle :
  forallb isspace (lit " ") = true
  /\ title_has_sensitive_term (parse_mask_terms None) (lit " ") = false
  /\ derive_label (parse_mask_terms None) (lit " ") (lit "chrome.exe")
     = (lit "Browsing Idle", None)
  /\ derive_label (parse_mask_terms None) (lit " ") (lit "excel.exe")
     = (lit "Working in Excel", None)
  /\ derive_label (parse_mask_terms None) (lit " ") (lit "chrome.exe")
     <> (SAFE_IDLE_MESSAGE, None).
Proof. vm_compute; repeat split; discriminate. Qed.

Lemma blank_title_idle_witness :
  derive_label (parse_mask_terms None) [] (lit "chrome.exe")
  = (SAFE_IDLE_MESSAGE, None)
  /\ derive_label (parse_mask_terms None) (lit "  ") (lit "explorer.exe")
     = (SAFE_IDLE_MESSAGE, None).
Proof.
  split.
  - refine (proj1 (@blank_title_idle ascii_tables (parse_mask_terms None) []
                     (lit "chrome.exe") _) _); reflexivity.
  - refine (proj2 (@blank_title_idle ascii_tables (parse_mask_terms None)
                     (lit "  ") (lit "explorer.exe") _) _ _ _); reflexivity.
Defined.

(** C3 as stated fails: for a title of 41 letters in a browser the label
    is 49 code points long, more than 40. *)
Lemma browser_label_longer_than_max :
  let title := repeat 120%N 41 in
  title_has_sensitive_term (parse_mask_terms None) title = false
  /\ DOMAIN_RE_search title = None
  /\ derive_label (parse_mask_terms None) title (lit "chrome.exe")
     = (lit "Browsing " ++ repeat 120%N 39 ++ [ELLIPSIS], None)
  /\ List.length
       (fst (derive_label (parse_mask_terms None) title (lit "chrome.exe")))
     = 49
  /\ ~ List.length
         (fst (derive_label (parse_mask_terms None) title (lit "chrome.exe")))
       <= 40.
Proof. vm_compute; repeat split; lia. Qed.

Lemma browser_fallback_label_witness :
  derive_label (parse_mask_terms None) (lit "My Document") (lit "firefox.exe")
  = (lit "Browsing " ++ sanitize_title_to_short_label (lit "My Document") 40,
     None)
  /\ 1 <= List.length (sanitize_title_to_short_label (lit "My Document") 40)
     <= 40
  /\ List.length
       (fst (derive_label (parse_mask_terms None) (lit "My Document")
               (lit "firefox.exe"))) <= 49.
Proof.
  apply (@browser_fallback_label ascii_tables).
  - discriminate.
  - reflexivity.
  - vm_compute; repeat first [left; reflexivity | right].
  - reflexivity.
Defined.

(** C4 as stated fails: [",,,"] is not blank, all its entries are empty,
    and the stored set is empty instead of the defaults. *)
Lemma only_commas_no_terms :
  parse_mask_terms (Some (lit ",,,")) = []
  /\ parse_mask_terms None <> []
  /\ parse_mask_terms (Some (lit ",,,")) <> parse_mask_terms None.
Proof. vm_compute; repeat split; discriminate. Qed.

Lemma parse_mask_terms_spec_witness :
  In (lit "foo") (@parse_mask_terms ascii_tables (Some (lit "Foo, BAR")))
  /\ @parse_mask_terms ascii_tables (Some (lit " , ")) = []
  /\ @parse_mask_terms ascii_tables (Some (lit "  "))
     = sorted_set (List.map (@str_lower ascii_tables) DEFAULT_SENSITIVE_TERMS).
Proof.
  split; [|split].
  - destruct (@parse_mask_terms_spec ascii_tables (Some (lit "Foo, BAR")))
      as (_ & H & _).
    destruct (H (lit "Foo, BAR") eq_refl ltac:(discriminate)) as (Hm & _).
    apply Hm; exists (lit "Foo"); split; [left; reflexivity|].
    split; [discriminate | reflexivity].
  - destruct (@parse_mask_terms_spec ascii_tables (Some (lit " , ")))
      as (_ & H & _).
    destruct (H (lit " , ") eq_refl ltac:(discriminate)) as (_ & He).
    apply He; intros e [<- | [<- | []]]; reflexivity.
  - destruct (@parse_mask_terms_spec ascii_tables (Some (lit "  ")))
      as (_ & _ & H).
    apply H; right; exists (lit "  "); split; reflexivity.
Defined.

(** C9 as stated fails: the title ["Excel"] is, as a whole, a substring of
    the label that [excel.exe] is mapped to. *)
Lemma mapped_label_shares_text_with_title :
  title_has_sensitive_term (parse_mask_terms None) (lit "Excel") = false
  /\ dict_get APP_MAP (lit "excel.exe") = Some (lit "Working in Excel")
  /\ derive_label (parse_mask_terms None) (lit "Excel") (lit "excel.exe")
     = (lit "Working in Excel", None)
  /\ occurs (lit "Excel") (lit "Excel")
  /\ occurs (lit "Excel")
       (fst (derive_label (parse_mask_terms None) (lit "Excel")
               (lit "excel.exe"))).
Proof.
  repeat split; try reflexivity.
  - exists [], []; reflexivity.
  - exists (lit "Working in "), []; reflexivity.
Qed.

Lemma mapped_label_verbatim_witness :
  str_mem (lit "winword.exe") BROWSERS = false
  /\ derive_label (parse_mask_terms None) (lit "Minutes.docx - Word")
       (lit "winword.exe")
     = (lit "Working in Word", None).
Proof.
  apply (@mapped_label_verbatim ascii_tables).
  - discriminate.
  - reflexivity.
  - reflexivity.
Defined.

(** ** Concrete runs of the session *)

(** C5 as stated fails: the reconnect after a pipe failure (the second
    [connect] of the channel) is refused with [InvalidID]; [safe_update]
    does not raise, constructs and connects a third [Presence] at once, and
    returns normally. *)
Lemma invalid_id_on_reconnect_not_raised :
  on_connect id_refused_on_reconnect 1 = Some InvalidID
  /\ exists s',
       safe_update id_refused_on_reconnect 2 SAFE_IDLE_MESSAGE None
         (new_client (lit "1234"))
       = Some (Ret tt, s')
       /\ rev (trace s')
          = [ CallInit 0; CallConnect 0; Log DEBUG;
              CallUpdate 0 SAFE_IDLE_MESSAGE None;
              Log DEBUG; Sleep 1;
              CallInit 1; CallConnect 1;
              CallInit 2; CallConnect 2; Log DEBUG;
              CallUpdate 2 SAFE_IDLE_MESSAGE None ].
Proof.
  split; [reflexivity|].
  eexists; split; reflexivity.
Qed.

Lemma invalid_id_in_safe_update_witness :
  safe_update_loop id_refused 1 SAFE_IDLE_MESSAGE None 1
    (new_client (lit "1234"))
  = Some (Raise InvalidID,
          record (Log ERROR)
            (record (CallConnect 0)
               (with_rpc (Some 0) (record (CallInit 0)
                                     (new_client (lit "1234"))))))
  /\ safe_update_loop id_refused_on_reconnect 2 SAFE_IDLE_MESSAGE None 1
       (new_client (lit "1234"))
     = safe_update_loop id_refused_on_reconnect 1 SAFE_IDLE_MESSAGE None
         (Qmin 16 (1 * 2))
         (record (CallConnect 1)
            (with_rpc (Some 1)
               (record (CallInit 1)
                  (backing_off 1
                     (record (CallUpdate 0 SAFE_IDLE_MESSAGE None)
                        (connected_client (lit "1234"))))))).
Proof.
  split.
  - apply (proj1 (invalid_id_in_safe_update id_refused SAFE_IDLE_MESSAGE
                    None 1 (new_client (lit "1234")) 0)).
    reflexivity.
  - apply (proj2 (invalid_id_in_safe_update id_refused_on_reconnect
                    SAFE_IDLE_MESSAGE None 1 (new_client (lit "1234")) 1)
             InvalidPipe
             (record (CallUpdate 0 SAFE_IDLE_MESSAGE None)
                (connected_client (lit "1234")))); reflexivity.
Defined.

Lemma safe_update_two_pipe_failures_witness :
  exists s',
    safe_update pipe_broken_twice 2 SAFE_IDLE_MESSAGE None
      (new_client (lit "1234")) = None
    /\ (forall n, safe_update pipe_broken_twice (3 + n) SAFE_IDLE_MESSAGE None
                    (new_client (lit "1234")) = Some (Ret tt, s'))
    /\ sleeps (trace s') = [1; 2]%Q
    /\ calls is_update (trace s') = 3
    /\ calls is_connect (trace s') = 3
    /\ _connected (self s') = true.
Proof.
  apply (@safe_update_two_pipe_failures pipe_broken_twice
           (fun _ => eq_refl) (fun _ => eq_refl) SAFE_IDLE_MESSAGE None
           (new_client (lit "1234")) InvalidPipe ConnectionRefusedError);
    reflexivity.
Defined.

(** C7 as stated fails: when the channel's [clear] raises, [close] raises
    the same exception to its caller, after the reset (and without calling
    the channel's [close]). *)
Lemma close_raises_when_clear_fails :
  close clear_fails (connected_client (lit "1234"))
  = (Raise OtherError,
     {| self := {| client_id := lit "1234"; _rpc := None;
                   _connected := false |};
        trace := [Log DEBUG; CallClear 0;
                  Log DEBUG; CallConnect 0; CallInit 0] |})
  /\ fst (close clear_fails (connected_client (lit "1234"))) <> Ret tt.
Proof. split; [reflexivity | discriminate]. Qed.

Lemma close_teardown_witness :
  fst (close clear_fails (connected_client (lit "1234"))) = Raise OtherError
  /\ main_finally clear_fails (connected_client (lit "1234"))
     = (Ret tt, snd (close clear_fails (connected_client (lit "1234"))))
  /\ exists s'',
       connect clear_fails
         (snd (close clear_fails (connected_client (lit "1234"))))
       = (Ret tt, s'')
       /\ _connected (self s'') = true
       /\ _rpc (self s'') = Some 1.
Proof.
  destruct (close_teardown clear_fails (connected_client (lit "1234")))
    as (_ & _ & Hraise & Hmain & Hconnect).
  split; [|split].
  - apply Hraise; exists 0; split; [reflexivity | left; reflexivity].
  - exact Hmain.
  - apply Hconnect; reflexivity.
Defined.

Lemma close_resets_then_connect_constructs_witness :
  0 <> 1
  /\ exists evs,
       trace (snd (connect clear_fails
                     (snd (close clear_fails
                             (connected_client (lit "1234"))))))
       = evs ++ CallInit 1
           :: trace (snd (close clear_fails (connected_client (lit "1234"))))
       /\ Forall (fun ev => ev = Log DEBUG \/ ev = CallConnect 1) evs
       /\ (on_init clear_fails 1 = None ->
           _rpc (self (snd (connect clear_fails
                              (snd (close clear_fails
                                      (connected_client (lit "1234")))))))
           = Some 1).
Proof.
  destruct (close_resets_then_connect_constructs clear_fails
              (connected_client (lit "1234")))
    as (_ & _ & Hfresh & Hconstructs).
  split; [|exact Hconstructs].
  apply Hfresh; [|reflexivity].
  exact (@wf_connect clear_fails (new_client (lit "1234"))
           (@wf_new_client (lit "1234"))).
Defined.

(** * Further properties *)

(** ** Splitting and trimming *)

Lemma split_nonempty (sep : char) (s : pystr) : split sep s <> [].
Proof.
  destruct s as [|c s]; simpl; [discriminate|].
  destruct (N.eqb c sep); [discriminate|].
  destruct (split sep s); discriminate.
Qed.

Lemma split_app (sep : char) (a b : pystr) :
  split sep (a ++ sep :: b) = split sep a ++ split sep b.
Proof.
  induction a as [|c a IH]; simpl.
  - rewrite N.eqb_refl; reflexivity.
  - destruct (N.eqb c sep); [rewrite IH; reflexivity|].
    rewrite IH; pose proof (split_nonempty sep a) as N.
    destruct (split sep a); [congruence | reflexivity].
Qed.

Lemma split_entry_chars (sep : char) (s e : pystr) (x : char) :
  In e (split sep s) -> In x e -> In x s /\ x <> sep.
Proof.
  revert e; induction s as [|c s IH]; simpl; intros e He Hx.
  - destruct He as [<- | []]; destruct Hx.
  - destruct (N.eqb_spec c sep) as [-> | Hc].
    + destruct He as [<- | He]; [destruct Hx|].
      destruct (IH e He Hx); auto.
    + destruct (split sep s) as [|w ws] eqn:E.
      * destruct He as [<- | []]; destruct Hx as [<- | []]; auto.
      * destruct He as [<- | He].
        -- destruct Hx as [<- | Hx]; [auto|].
           destruct (IH w (or_introl eq_refl) Hx); auto.
        -- destruct (IH e (or_intror He) Hx); auto.
Qed.

Lemma lstrip_In (s : pystr) (x : char) : In x (lstrip s) -> In x s.
Proof.
  induction s as [|c s IH]; simpl; [tauto|].
  destruct (isspace c); simpl; tauto.
Qed.

Lemma lstrip_keeps (s : pystr) (x : char) :
  In x s -> isspace x = false -> In x (lstrip s).
Proof.
  induction s as [|c s IH]; simpl; [tauto|].
  intros [<- | H] Hx; [rewrite Hx; left; reflexivity|].
  destruct (isspace c); [auto | right; exact H].
Qed.

Lemma strip_In (s : pystr) (x : char) : In x (strip s) -> In x s.
Proof.
  unfold strip, rstrip; intros H.
  rewrite <- in_rev in H; apply lstrip_In in H.
  rewrite <- in_rev in H; apply lstrip_In; exact H.
Qed.

Lemma strip_keeps (s : pystr) (x : char) :
  In x s -> isspace x = false -> In x (strip s).
Proof.
  intros H Hx; unfold strip, rstrip; rewrite <- in_rev.
  apply lstrip_keeps; [|exact Hx].
  rewrite <- in_rev; apply lstrip_keeps; assumption.
Qed.

Lemma lstrip_head (s : pystr) :
  match lstrip s with
  | [] => True
  | c :: _ => isspace c = false
  end.
Proof.
  induction s as [|c s IH]; simpl; [exact I|].
  destruct (isspace c) eqn:E; [exact IH | exact E].
Qed.

Lemma lstrip_fixed (s : pystr) :
  match s with [] => True | c :: _ => isspace c = false end ->
  lstrip s = s.
Proof. destruct s as [|c s]; simpl; [reflexivity | intros ->; reflexivity]. Qed.

Lemma lstrip_idem (s : pystr) : lstrip (lstrip s) = lstrip s.
Proof. apply lstrip_fixed, lstrip_head. Qed.

Lemma lstrip_snoc (s : pystr) (c : char) :
  isspace c = false -> lstrip (s ++ [c]) = lstrip s ++ [c].
Proof.
  intros Hc; induction s as [|x s IH]; simpl; [rewrite Hc; reflexivity|].
  destruct (isspace x); [exact IH | reflexivity].
Qed.

Lemma rstrip_cons (c : char) (s : pystr) :
  isspace c = false -> rstrip (c :: s) = c :: rstrip s.
Proof.
  intros Hc; unfold rstrip; simpl.
  rewrite (lstrip_snoc _ _ Hc), rev_app_distr; reflexivity.
Qed.

Lemma rstrip_idem (s : pystr) : rstrip (rstrip s) = rstrip s.
Proof. unfold rstrip; rewrite rev_involutive, lstrip_idem; reflexivity. Qed.

Lemma rstrip_snoc (s : pystr) (c : char) :
  isspace c = false -> rstrip (s ++ [c]) = s ++ [c].
Proof.
  intros Hc; unfold rstrip; rewrite rev_app_distr; simpl; rewrite Hc.
  simpl; rewrite rev_involutive; reflexivity.
Qed.

(** A trimmed string neither begins nor ends with whitespace. *)
Lemma strip_ends (s : pystr) :
  match strip s with [] => True | c :: _ => isspace c = false end
  /\ isspace (last (strip s) 0%N) = false.
Proof.
  split.
  - unfold strip.
    pose proof (lstrip_head s) as H.
    destruct (lstrip s) as [|c y]; [exact I|].
    rewrite (rstrip_cons _ _ H); exact H.
  - unfold strip, rstrip.
    pose proof (lstrip_head (rev (lstrip s))) as H.
    destruct (lstrip (rev (lstrip s))) as [|d z]; [reflexivity|].
    simpl; rewrite last_last; exact H.
Qed.

Lemma strip_idem (s : pystr) : strip (strip s) = strip s.
Proof.
  unfold strip.
  pose proof (lstrip_head s) as H.
  destruct (lstrip s) as [|c y]; [reflexivity|].
  rewrite (rstrip_cons _ _ H); cbn [lstrip]; rewrite H.
  rewrite (rstrip_cons _ _ H), rstrip_idem; reflexivity.
Qed.

Lemma lstrip_map (f : char -> char) (s : pystr) :
  (forall c, isspace (f c) = isspace c) ->
  lstrip (List.map f s) = List.map f (lstrip s).
Proof.
  intros Hf; induction s as [|c s IH]; simpl; [reflexivity|].
  rewrite Hf; destruct (isspace c); [exact IH | reflexivity].
Qed.

Lemma strip_map (f : char -> char) (s : pystr) :
  (forall c, isspace (f c) = isspace c) ->
  strip (List.map f s) = List.map f (strip s).
Proof.
  intros Hf; unfold strip, rstrip.
  rewrite (lstrip_map _ _ Hf), <- map_rev, (lstrip_map _ _ Hf), map_rev.
  reflexivity.
Qed.

(** ** ASCII lowercasing *)

Lemma ascii_lower_space (c : char) : isspace (ascii_lower c) = isspace c.
Proof.
  unfold ascii_lower.
  destruct ((65 <=? c) && (c <=? 90))%N eqn:E; [|reflexivity].
  apply andb_true_iff in E; destruct E as [E1 E2].
  apply N.leb_le in E1, E2.
  unfold isspace.
  repeat match goal with
         | |- context [N.leb ?a ?b] => destruct (N.leb_spec a b); try lia
         | |- context [N.eqb ?a ?b] => destruct (N.eqb_spec a b); try lia
         end; reflexivity.
Qed.

Lemma ascii_lower_idem (c : char) : ascii_lower (ascii_lower c) = ascii_lower c.
Proof.
  unfold ascii_lower.
  destruct ((65 <=? c) && (c <=? 90))%N eqn:E; [|rewrite E; reflexivity].
  apply andb_true_iff in E; destruct E as [E1 E2].
  apply N.leb_le in E1, E2.
  destruct (N.leb_spec 65 (c + 32)); destruct (N.leb_spec (c + 32) 90);
    simpl; try reflexivity; lia.
Qed.

Lemma ascii_lower_ascii (c : char) : is_ascii (ascii_lower c) = is_ascii c.
Proof.
  unfold ascii_lower, is_ascii.
  destruct ((65 <=? c) && (c <=? 90))%N eqn:E; [|reflexivity].
  apply andb_true_iff in E; destruct E as [E1 E2].
  apply N.leb_le in E1, E2.
  destruct (N.ltb_spec (c + 32) 128); destruct (N.ltb_spec c 128);
    try reflexivity; lia.
Qed.

Lemma ascii_lower_comma (c : char) : ascii_lower c = 44%N -> c = 44%N.
Proof.
  unfold ascii_lower.
  destruct ((65 <=? c) && (c <=? 90))%N eqn:E; [|auto].
  apply andb_true_iff in E; destruct E as [E1 E2].
  apply N.leb_le in E1, E2; lia.
Qed.

Lemma map_ascii_lower_ascii (s : pystr) :
  forallb is_ascii s = true ->
  forallb is_ascii (List.map ascii_lower s) = true.
Proof.
  induction s as [|c s IH]; simpl; [reflexivity|].
  rewrite ascii_lower_ascii, !andb_true_iff; tauto.
Qed.

Lemma map_ascii_lower_idem (s : pystr) :
  List.map ascii_lower (List.map ascii_lower s) = List.map ascii_lower s.
Proof.
  rewrite map_map; apply map_ext; intros c; apply ascii_lower_idem.
Qed.

Lemma lowers_ascii_twice (U : UnicodeTables) (s : pystr) :
  lowers_ascii U -> forallb is_ascii s = true ->
  str_lower (str_lower s) = List.map ascii_lower s.
Proof.
  intros L H; rewrite (L s H), (L _ (map_ascii_lower_ascii s H)).
  apply map_ascii_lower_idem.
Qed.

Lemma forallb_sub (p : char -> bool) (s t : pystr) :
  (forall x, In x t -> In x s) -> forallb p s = true -> forallb p t = true.
Proof.
  intros Hsub Hs; rewrite forallb_forall in *; auto.
Qed.

(** ** The term matcher, further *)

Lemma str_lt_irrefl (a : pystr) : ~ str_lt a a.
Proof.
  unfold str_lt; intros H.
  assert (E : str_compare a a = Eq) by (apply str_compare_eq; reflexivity).
  congruence.
Qed.

(** A strictly increasing list is determined by its elements. *)
Lemma sorted_unique (l1 l2 : list pystr) :
  StronglySorted str_lt l1 -> StronglySorted str_lt l2 ->
  (forall t, In t l1 <-> In t l2) -> l1 = l2.
Proof.
  intros S1; revert l2; induction S1 as [|x l1 S1 IH F1];
    intros l2 S2 Hiff.
  - destruct l2 as [|y l2]; [reflexivity|].
    destruct (proj2 (Hiff y) (or_introl eq_refl)).
  - destruct S2 as [|y l2 S2 F2].
    + destruct (proj1 (Hiff x) (or_introl eq_refl)).
    + rewrite Forall_forall in F1, F2.
      assert (Exy : x = y).
      { destruct (proj1 (Hiff x) (or_introl eq_refl)) as [E | Hx]; [auto|].
        destruct (proj2 (Hiff y) (or_introl eq_refl)) as [E | Hy]; [auto|].
        exfalso; apply (@str_lt_irrefl x).
        apply (@str_lt_trans x y x); auto. }
      subst y; f_equal; apply IH; [exact S2|].
      intros t; split; intros Ht.
      * destruct (proj1 (Hiff t) (or_intror Ht)) as [E | H]; [|exact H].
        subst t; exfalso; apply (@str_lt_irrefl x); auto.
      * destruct (proj2 (Hiff t) (or_intror Ht)) as [E | H]; [|exact H].
        subst t; exfalso; apply (@str_lt_irrefl x); auto.
Qed.

Lemma sorted_set_ext (xs ys : list pystr) :
  (forall t, In t xs <-> In t ys) -> sorted_set xs = sorted_set ys.
Proof.
  intros H; apply sorted_unique; try apply sorted_set_sorted.
  intros t; rewrite !sorted_set_In; apply H.
Qed.

Section TermSetFacts.

Context {U : UnicodeTables}.

Lemma parse_mask_terms_collected (raw : pystr) :
  strip raw <> [] ->
  parse_mask_terms (Some raw)
  = sorted_set (List.map str_lower (collected raw)).
Proof.
  intros H; unfold parse_mask_terms, getenv_str.
  destruct (strip raw) as [|c0 r0] eqn:Es; [congruence|].
  destruct raw as [|c1 r1]; [discriminate | reflexivity].
Qed.

Lemma parse_mask_terms_default (v : option pystr) :
  getenv_str v None = None ->
  parse_mask_terms v = sorted_set (List.map str_lower DEFAULT_SENSITIVE_TERMS).
Proof. intros H; unfold parse_mask_terms; rewrite H; reflexivity. Qed.

Lemma collected_app (a b : pystr) :
  collected (a ++ 44%N :: b) = collected a ++ collected b.
Proof. unfold collected; rewrite split_app, flat_map_app; reflexivity. Qed.

Lemma strip_with_comma (a b : pystr) : strip (a ++ 44%N :: b) <> [].
Proof.
  assert (H : In 44%N (strip (a ++ 44%N :: b))).
  { apply strip_keeps; [|reflexivity].
    apply in_or_app; right; left; reflexivity. }
  destruct (strip (a ++ 44%N :: b)); [destruct H | discriminate].
Qed.

(** X1.  [title_has_sensitive_term] answers [True] exactly when some
    non-empty stored term occurs in the lowercased title: a title is never
    masked for another reason. *)
Theorem title_has_sensitive_term_iff (terms : list pystr) (title : pystr) :
  title_has_sensitive_term terms title = true
  <-> exists t, In t terms /\ t <> [] /\ occurs t (str_lower title).
Proof.
  unfold title_has_sensitive_term; rewrite existsb_exists; split.
  - intros (t & Hin & H); exists t; destruct t as [|c t]; [discriminate|].
    split; [exact Hin|]; split; [discriminate|].
    apply str_in_occurs; exact H.
  - intros (t & Hin & Hne & H); exists t; split; [exact Hin|].
    destruct t as [|c t]; [congruence|]; apply str_in_occurs; exact H.
Qed.

(** X2.  The stored tuple does not depend on the order of the entries of
    [MASK_TERMS], nor on an entry being repeated: the entries around a
    comma can be exchanged, and a value followed by a comma and itself
    stores what the value alone stores. *)
Theorem parse_mask_terms_order_free (a b : pystr) :
  parse_mask_terms (Some (a ++ 44%N :: b))
  = parse_mask_terms (Some (b ++ 44%N :: a))
  /\ (strip a <> [] ->
      parse_mask_terms (Some (a ++ 44%N :: a)) = parse_mask_terms (Some a)).
Proof.
  split.
  - rewrite !parse_mask_terms_collected by apply strip_with_comma.
    apply sorted_set_ext; intros t.
    rewrite !collected_app, !map_app, !in_app_iff; tauto.
  - intros Ha.
    rewrite parse_mask_terms_collected by apply strip_with_comma.
    rewrite (parse_mask_terms_collected _ Ha).
    apply sorted_set_ext; intros t.
    rewrite collected_app, map_app, in_app_iff; tauto.
Qed.

End TermSetFacts.

Lemma default_terms_normal :
  Forall (fun d => forallb is_ascii d = true
                   /\ List.map ascii_lower d = d
                   /\ d <> [] /\ ~ In 44%N d /\ strip d = d)
         DEFAULT_SENSITIVE_TERMS.
Proof.
  repeat constructor; try discriminate;
    intros H; vm_compute in H;
    repeat (destruct H as [H | H]; [discriminate|]); exact H.
Qed.

Section TermSetNormalForm.

Context {U : UnicodeTables}.
Hypothesis lower_ok : lowers_ascii U.

Lemma default_terms_lowered :
  List.map str_lower DEFAULT_SENSITIVE_TERMS = DEFAULT_SENSITIVE_TERMS.
Proof.
  rewrite <- (map_id DEFAULT_SENSITIVE_TERMS) at 2.
  apply map_ext_in; intros d Hd.
  pose proof default_terms_normal as F; rewrite Forall_forall in F.
  destruct (F d Hd) as (Ha & Hl & _).
  rewrite (lower_ok d Ha); exact Hl.
Qed.

(** X3.  Every stored term, from an ASCII value of [MASK_TERMS] or from
    the defaults, is non-empty, holds no comma, has no whitespace at either
    end, and is in lowercase. *)
Theorem stored_terms_normal (v : option pystr) (t : pystr) :
  (forall raw, v = Some raw -> forallb is_ascii raw = true) ->
  In t (parse_mask_terms v) ->
  t <> [] /\ ~ In 44%N t /\ strip t = t /\ List.map ascii_lower t = t.
Proof.
  intros Hascii Hin.
  destruct (getenv_str v None) as [raw'|] eqn:G.
  - assert (Hv : exists raw, v = Some raw /\ strip raw <> []).
    { unfold getenv_str in G; destruct v as [raw|]; [|discriminate].
      exists raw; split; [reflexivity|].
      destruct (strip raw); [discriminate | discriminate]. }
    destruct Hv as (raw & -> & Hraw).
    specialize (Hascii raw eq_refl).
    rewrite (parse_mask_terms_collected _ Hraw), sorted_set_In, in_map_iff
      in Hin.
    destruct Hin as (x & <- & Hx).
    unfold collected in Hx; apply in_flat_map in Hx.
    destruct Hx as (e & He & Hx).
    destruct (strip e) as [|c w] eqn:Ee; [destruct Hx|].
    destruct Hx as [<- | []].
    assert (Hw : forallb is_ascii (c :: w) = true).
    { apply (@forallb_sub is_ascii raw); [|exact Hascii].
      intros y Hy; rewrite <- Ee in Hy; apply strip_In in Hy.
      exact (proj1 (split_entry_chars _ _ _ _ He Hy)). }
    rewrite (@lowers_ascii_twice U _ lower_ok Hw).
    split; [discriminate|]; split; [|split].
    + rewrite in_map_iff; intros (y & Hy & Hin).
      apply ascii_lower_comma in Hy; subst y.
      rewrite <- Ee in Hin; apply strip_In in Hin.
      exact (proj2 (split_entry_chars _ _ _ _ He Hin) eq_refl).
    + rewrite (strip_map _ _ ascii_lower_space), <- Ee, strip_idem.
      reflexivity.
    + apply map_ascii_lower_idem.
  - rewrite (parse_mask_terms_default _ G), default_terms_lowered,
      sorted_set_In in Hin.
    pose proof default_terms_normal as F; rewrite Forall_forall in F.
    destruct (F t Hin) as (_ & Hl & Hne & Hc & Hs); auto.
Qed.

(** X4.  When [MASK_TERMS] is unset, empty or made of whitespace only, the
    stored terms are the 16 built-in defaults, none lost and none changed
    by the normalization. *)
Theorem defaults_stored (v : option pystr) :
  v = None \/ (exists raw, v = Some raw /\ forallb isspace raw = true) ->
  parse_mask_terms v = sorted_set DEFAULT_SENSITIVE_TERMS
  /\ (forall t, In t (parse_mask_terms v) <-> In t DEFAULT_SENSITIVE_TERMS)
  /\ List.length (parse_mask_terms v) = 16.
Proof.
  intros Hv.
  assert (G : getenv_str v None = None).
  { destruct Hv as [-> | (raw & -> & Hb)]; [reflexivity|].
    unfold getenv_str; rewrite (strip_blank raw Hb); reflexivity. }
  rewrite (parse_mask_terms_default _ G), default_terms_lowered.
  split; [reflexivity|]; split; [|reflexivity].
  intros t; apply sorted_set_In.
Qed.

End TermSetNormalForm.

Lemma stored_terms_normal_witness :
  lit "two words" <> [] /\ ~ In 44%N (lit "two words")
  /\ strip (lit "two words") = lit "two words"
  /\ List.map ascii_lower (lit "two words") = lit "two words".
Proof.
  apply (@stored_terms_normal ascii_tables (fun s _ => eq_refl)
           (Some (lit " Secret ,, Two Words ")) (lit "two words")).
  - intros raw E; inversion E; reflexivity.
  - vm_compute; right; left; reflexivity.
Defined.

Lemma defaults_stored_witness :
  @parse_mask_terms ascii_tables (Some (lit "   "))
  = sorted_set DEFAULT_SENSITIVE_TERMS
  /\ (forall t, In t (@parse_mask_terms ascii_tables (Some (lit "   ")))
                <-> In t DEFAULT_SENSITIVE_TERMS)
  /\ List.length (@parse_mask_terms ascii_tables (Some (lit "   "))) = 16.
Proof.
  apply (@defaults_stored ascii_tables (fun s _ => eq_refl)).
  right; exists (lit "   "); split; reflexivity.
Defined.

Lemma parse_mask_terms_order_free_witness :
  @parse_mask_terms ascii_tables (Some (lit "nda" ++ 44%N :: lit "nda"))
  = @parse_mask_terms ascii_tables (Some (lit "nda")).
Proof.
  apply (@parse_mask_terms_order_free ascii_tables (lit "nda") (lit "nda")).
  discriminate.
Defined.

(** ** The sanitizer, further *)

Lemma sub_ws_from_spaced (b : bool) (s : pystr) :
  single_spaced b (sub_ws_from b s) = true.
Proof.
  revert b; induction s as [|c s IH]; intros b; simpl; [reflexivity|].
  destruct (isspace c) eqn:E.
  - destruct b; [apply IH|].
    simpl; rewrite IH; reflexivity.
  - simpl; rewrite E; apply IH.
Qed.

Lemma single_spaced_weaken (b : bool) (s : pystr) :
  single_spaced b s = true -> single_spaced false s = true.
Proof.
  destruct s as [|c s]; simpl; [reflexivity|].
  destruct (isspace c); [|auto].
  rewrite !andb_true_iff; intros [[H1 _] H2]; auto.
Qed.

Lemma sub_ws_from_fixed (b : bool) (s : pystr) :
  single_spaced b s = true -> sub_ws_from b s = s.
Proof.
  revert b; induction s as [|c s IH]; intros b; simpl; [reflexivity|].
  destruct (isspace c).
  - rewrite !andb_true_iff; intros [[H1 H2] H3].
    apply N.eqb_eq in H1; subst c.
    destruct b; [discriminate|]; rewrite (IH true H3); reflexivity.
  - intros H; rewrite (IH false H); reflexivity.
Qed.

Lemma sub_ws_from_snoc (b : bool) (s : pystr) (c : char) :
  isspace c = false -> sub_ws_from b (s ++ [c]) = sub_ws_from b s ++ [c].
Proof.
  intros Hc; revert b; induction s as [|x s IH]; intros b; simpl.
  - rewrite Hc; reflexivity.
  - destruct (isspace x); [destruct b|]; rewrite IH; reflexivity.
Qed.

Lemma single_spaced_firstn (b : bool) (n : nat) (s : pystr) :
  single_spaced b s = true -> single_spaced b (firstn n s) = true.
Proof.
  revert b s; induction n as [|n IH]; intros b [|c s]; simpl; auto.
  destruct (isspace c); [|apply IH].
  rewrite !andb_true_iff; intros [H H']; split; [exact H | apply IH, H'].
Qed.

Lemma single_spaced_snoc (b : bool) (s : pystr) (c : char) :
  isspace c = false -> single_spaced b s = true ->
  single_spaced b (s ++ [c]) = true.
Proof.
  intros Hc; revert b; induction s as [|x s IH]; intros b; simpl.
  - rewrite Hc; reflexivity.
  - destruct (isspace x); [|apply IH].
    rewrite !andb_true_iff; intros [H H']; split; [exact H | apply IH, H'].
Qed.

Lemma lstrip_suffix (s : pystr) : exists j, lstrip s = skipn j s.
Proof.
  induction s as [|c s [j IH]]; simpl; [exists 0; reflexivity|].
  destruct (isspace c); [exists (S j); exact IH | exists 0; reflexivity].
Qed.

Lemma rstrip_prefix (s : pystr) : exists k, rstrip s = firstn k s.
Proof.
  unfold rstrip; destruct (lstrip_suffix (rev s)) as [j ->].
  rewrite skipn_rev, rev_involutive; eauto.
Qed.

Lemma slice_to_prefix (k : Z) (s : pystr) : exists n, slice_to k s = firstn n s.
Proof. unfold slice_to; eauto. Qed.

Lemma nonempty_snoc (s : pystr) : s <> [] -> s = removelast s ++ [last s 0%N].
Proof. intros H; apply app_removelast_last; exact H. Qed.

(** The title with its ends trimmed and its whitespace collapsed is tidy. *)
Lemma collapsed_tidy (title : pystr) :
  single_spaced true (sub_ws (strip title)) = true
  /\ isspace (last (sub_ws (strip title)) 0%N) = false.
Proof.
  destruct (strip_ends title) as [Hhead Hlast]; unfold sub_ws; split.
  - destruct (strip title) as [|c r]; [reflexivity|]; simpl.
    rewrite Hhead; simpl; rewrite Hhead; apply sub_ws_from_spaced.
  - destruct (strip title) as [|c r] eqn:E; [reflexivity|].
    rewrite (@nonempty_snoc (c :: r)) by discriminate.
    rewrite (sub_ws_from_snoc _ _ _ Hlast), last_last; exact Hlast.
Qed.

Lemma sanitize_tidy_result (title : pystr) (max_len : Z) :
  tidy (sanitize_title_to_short_label title max_len) = true.
Proof.
  destruct (collapsed_tidy title) as [Hs Hl].
  unfold sanitize_title_to_short_label, tidy.
  remember (sub_ws (strip title)) as t eqn:Et; clear Et.
  destruct (Z.of_nat (List.length t) >? max_len)%Z.
  - destruct (slice_to_prefix (max_len - 1) t) as [n ->].
    destruct (rstrip_prefix (firstn n t)) as [k ->].
    assert (H : single_spaced true (firstn k (firstn n t) ++ [ELLIPSIS])
                = true)
      by (apply single_spaced_snoc; [reflexivity|];
          apply single_spaced_firstn, single_spaced_firstn, Hs).
    destruct (firstn k (firstn n t) ++ [ELLIPSIS]) as [|c r] eqn:E.
    + destruct (firstn k (firstn n t)); discriminate.
    + change (single_spaced true (c :: r)
              && negb (isspace (last (c :: r) 0%N)) = true).
      rewrite H, <- E, last_last; reflexivity.
  - destruct t as [|c r]; [reflexivity|].
    change (single_spaced true (c :: r)
            && negb (isspace (last (c :: r) 0%N)) = true).
    rewrite Hs, Hl; reflexivity.
Qed.

Lemma tidy_strip_fixed (s : pystr) : tidy s = true -> strip s = s.
Proof.
  unfold tidy; rewrite andb_true_iff, negb_true_iff; intros [Hs Hl].
  destruct s as [|c r]; [reflexivity|].
  assert (Hc : isspace c = false).
  { simpl in Hs; destruct (isspace c); [|reflexivity].
    rewrite andb_false_r in Hs; discriminate. }
  unfold strip; simpl lstrip; rewrite Hc.
  rewrite (@nonempty_snoc (c :: r)) by discriminate.
  apply rstrip_snoc; exact Hl.
Qed.

Lemma sanitize_fixed (s : pystr) (max_len : Z) :
  tidy s = true -> s <> [] -> (Z.of_nat (List.length s) <= max_len)%Z ->
  sanitize_title_to_short_label s max_len = s.
Proof.
  intros Ht Hne Hlen; unfold sanitize_title_to_short_label.
  rewrite (tidy_strip_fixed s Ht).
  unfold tidy in Ht; apply andb_true_iff in Ht; destruct Ht as [Hs _].
  unfold sub_ws; rewrite (sub_ws_from_fixed _ _ (single_spaced_weaken _ _ Hs)).
  destruct (Z.gtb_spec (Z.of_nat (List.length s)) max_len); [lia|].
  destruct s; [congruence | reflexivity].
Qed.

(** X5.  The label the sanitizer returns is never empty and always tidy,
    for every title and every maximum: no whitespace at either end, no
    whitespace character but U+0020, and never two of them in a row. *)
Theorem sanitize_tidy (title : pystr) (max_len : Z) :
  sanitize_title_to_short_label title max_len <> []
  /\ tidy (sanitize_title_to_short_label title max_len) = true
  /\ forall pre c d post,
       sanitize_title_to_short_label title max_len = pre ++ c :: d :: post ->
       isspace c = true -> c = 32%N /\ isspace d = false.
Proof.
  split; [apply sanitize_nonempty|].
  pose proof (sanitize_tidy_result title max_len) as T.
  split; [exact T|].
  unfold tidy in T; apply andb_true_iff in T; destruct T as [T _].
  set (s := sanitize_title_to_short_label title max_len) in *.
  clearbody s; intros pre c d post -> Hc.
  assert (G : forall b, single_spaced b (pre ++ c :: d :: post) = true ->
                        c = 32%N /\ isspace d = false).
  { clear T; induction pre as [|x pre IH]; intros b; simpl.
    - rewrite Hc; destruct (isspace d); rewrite !andb_true_iff.
      + intros [[_ _] [[_ H] _]]; discriminate.
      + intros [[H _] _]; apply N.eqb_eq in H; auto.
    - destruct (isspace x); [|apply IH].
      rewrite !andb_true_iff; intros [_ H]; exact (IH _ H). }
  exact (G true T).
Qed.

(** X6.  A label that is tidy, not empty and within the maximum is
    returned as it is; hence sanitizing twice is sanitizing once, for every
    maximum of at least the 4 characters of the idle label. *)
Theorem sanitize_idempotent (title : pystr) (max_len : Z) :
  (4 <= max_len)%Z ->
  (tidy title = true -> title <> [] ->
   (Z.of_nat (List.length title) <= max_len)%Z ->
   sanitize_title_to_short_label title max_len = title)
  /\ sanitize_title_to_short_label
       (sanitize_title_to_short_label title max_len) max_len
     = sanitize_title_to_short_label title max_len.
Proof.
  intros Hm; split; [apply sanitize_fixed|].
  apply sanitize_fixed.
  - apply sanitize_tidy_result.
  - apply sanitize_nonempty.
  - apply sanitize_length; exact Hm.
Qed.

(** X7.  When the collapsed title is longer than the maximum (of at least
    1), the label is a proper prefix of the collapsed title, with its
    trailing whitespace removed, followed by one ellipsis, and its length is
    within the maximum; when the collapsed title is not empty and fits, it is
    the label. *)
Theorem sanitize_truncates (title : pystr) (max_len : Z) :
  (1 <= max_len)%Z ->
  let t := sub_ws (strip title) in
  ((max_len < Z.of_nat (List.length t))%Z ->
   exists body rest,
     sanitize_title_to_short_label title max_len = body ++ [ELLIPSIS]
     /\ t = body ++ rest /\ rest <> []
     /\ (Z.of_nat (List.length body) < max_len)%Z
     /\ isspace (last body 0%N) = false)
  /\ (t <> [] -> (Z.of_nat (List.length t) <= max_len)%Z ->
      sanitize_title_to_short_label title max_len = t).
Proof.
  intros Hm t; unfold sanitize_title_to_short_label; fold t; split.
  - intros Hlong.
    destruct (Z.gtb_spec (Z.of_nat (List.length t)) max_len); [|lia].
    pose proof (@slice_to_length (max_len - 1) t ltac:(lia)) as Hs.
    destruct (slice_to_prefix (max_len - 1) t) as [n En].
    destruct (rstrip_prefix (slice_to (max_len - 1) t)) as [k Ek].
    pose proof (rstrip_length (slice_to (max_len - 1) t)) as Hr.
    set (body := rstrip (slice_to (max_len - 1) t)) in *.
    assert (Hb : body = firstn (Nat.min k n) t)
      by (rewrite Ek, En, firstn_firstn; reflexivity).
    exists body, (skipn (Nat.min k n) t).
    assert (Hne : body ++ [ELLIPSIS] <> [])
      by (destruct body; discriminate).
    destruct (body ++ [ELLIPSIS]) as [|c r] eqn:E; [congruence|].
    split; [reflexivity|]; split; [|split; [|split]].
    + rewrite Hb; symmetry; apply firstn_skipn.
    + intros Hnil.
      pose proof (firstn_skipn (Nat.min k n) t) as Hfs.
      rewrite Hnil, app_nil_r, <- Hb in Hfs.
      rewrite <- Hfs in Hlong; lia.
    + lia.
    + unfold body, rstrip.
      pose proof (lstrip_head (rev (slice_to (max_len - 1) t))) as Hh.
      destruct (lstrip (rev (slice_to (max_len - 1) t))); [reflexivity|].
      simpl; rewrite last_last; exact Hh.
  - intros Hne Hfit.
    destruct (Z.gtb_spec (Z.of_nat (List.length t)) max_len); [lia|].
    destruct t; [congruence | reflexivity].
Qed.

Lemma sanitize_idempotent_witness :
  sanitize_title_to_short_label (lit "Idle") 4 = lit "Idle"
  /\ sanitize_title_to_short_label
       (sanitize_title_to_short_label (lit "  a   long  title ") 4) 4
     = sanitize_title_to_short_label (lit "  a   long  title ") 4.
Proof.
  destruct (@sanitize_idempotent (lit "Idle") 4 ltac:(lia)) as [H _].
  split; [apply H; [reflexivity | discriminate | vm_compute; discriminate]|].
  apply (@sanitize_idempotent (lit "  a   long  title ") 4); lia.
Defined.

Lemma sanitize_truncates_witness :
  (exists body rest,
     sanitize_title_to_short_label (lit " report   for  May ") 9
     = body ++ [ELLIPSIS]
     /\ sub_ws (strip (lit " report   for  May ")) = body ++ rest
     /\ rest <> []
     /\ (Z.of_nat (List.length body) < 9)%Z
     /\ isspace (last body 0%N) = false)
  /\ sanitize_title_to_short_label (lit " report   for  May ") 14
     = lit "report for May".
Proof.
  split.
  - apply (@sanitize_truncates (lit " report   for  May ") 9 ltac:(lia)).
    vm_compute; reflexivity.
  - apply (@sanitize_truncates (lit " report   for  May ") 14 ltac:(lia)).
    + discriminate.
    + vm_compute; discriminate.
Defined.

(** ** What a match holds *)

Lemma forallb_weaken (p q : char -> bool) (w : pystr) :
  (forall c, p c = true -> q c = true) ->
  forallb p w = true -> forallb q w = true.
Proof. intros H; rewrite !forallb_forall; auto. Qed.

Lemma rep_consumed (m : pystr -> list pystr) (q : char -> bool) :
  (forall s s', In s' (m s) ->
                exists w, s = w ++ s' /\ forallb q w = true) ->
  forall fuel lo hi s s',
    In s' (rep m fuel lo hi s) ->
    exists w, s = w ++ s' /\ forallb q w = true.
Proof.
  intros Hm; induction fuel as [|fuel IH]; intros lo hi s s'; simpl.
  - destruct (Nat.eqb lo 0); simpl; [|tauto].
    intros [<- | []]; exists []; auto.
  - assert (Hstop : In s' (if Nat.eqb lo 0 then [s] else []) ->
                    exists w, s = w ++ s' /\ forallb q w = true).
    { destruct (Nat.eqb lo 0); simpl; [|tauto].
      intros [<- | []]; exists []; auto. }
    destruct hi as [[|h]|]; auto; rewrite in_app_iff, in_flat_map;
      (intros [(s1 & H1 & H2) | H]; [|auto]);
      destruct (Hm _ _ H1) as (w1 & -> & Q1);
      destruct (IH _ _ _ _ H2) as (w2 & -> & Q2);
      exists (w1 ++ w2); rewrite <- app_assoc, forallb_app, Q1, Q2; auto.
Qed.

Lemma rmatch_consumed (r : regex) :
  forall s s', In s' (rmatch r s) ->
               exists w, s = w ++ s' /\ forallb (alphabet r) w = true.
Proof.
  induction r as [p | r1 IH1 r2 IH2 | r IH lo hi]; intros s s';
    cbn [rmatch alphabet].
  - destruct s as [|c s]; simpl; [tauto|].
    destruct (p c) eqn:E; simpl; [|tauto].
    intros [<- | []]; exists [c]; simpl; rewrite E; auto.
  - rewrite in_flat_map; intros (s1 & H1 & H2).
    destruct (IH1 _ _ H1) as (w1 & -> & Q1).
    destruct (IH2 _ _ H2) as (w2 & -> & Q2).
    exists (w1 ++ w2); rewrite <- app_assoc, forallb_app; split; [auto|].
    rewrite (forallb_weaken _ (fun c => alphabet r1 c || alphabet r2 c) _
               (fun c H => orb_true_intro _ _ (or_introl H)) Q1).
    rewrite (forallb_weaken _ (fun c => alphabet r1 c || alphabet r2 c) _
               (fun c H => orb_true_intro _ _ (or_intror H)) Q2).
    reflexivity.
  - intros H.
    exact (@rep_consumed (rmatch r) (alphabet r) IH
             (S (List.length s)) lo hi s s' H).
Qed.

Lemma rep_takes (m : pystr -> list pystr) :
  (forall s s', In s' (m s) -> List.length s' < List.length s) ->
  forall fuel lo hi s s',
    In s' (rep m fuel lo hi s) -> List.length s' + lo <= List.length s.
Proof.
  intros Hm; induction fuel as [|fuel IH]; intros lo hi s s'; simpl.
  - destruct lo; simpl; [intros [<- | []]; lia | tauto].
  - assert (Hstop : In s' (if Nat.eqb lo 0 then [s] else []) ->
                    List.length s' + lo <= List.length s)
      by (destruct lo; simpl; [intros [<- | []]; lia | tauto]).
    destruct hi as [[|h]|]; auto; rewrite in_app_iff, in_flat_map;
      (intros [(s1 & H1 & H2) | H]; [|auto]);
      specialize (Hm _ _ H1); specialize (IH _ _ _ _ H2); lia.
Qed.

Lemma match_group_some (group rest : regex) (s h : pystr) :
  match_group group rest s = Some h ->
  exists s1, s = h ++ s1 /\ In s1 (rmatch group s).
Proof.
  unfold match_group.
  destruct (flat_map _ _) as [|[s1 s2] l] eqn:E; [discriminate|].
  intros H; inversion H; subst h; clear H.
  assert (Hin : In (s1, s2)
                  (flat_map (fun a => List.map (fun b => (a, b))
                                        (rmatch rest a))
                            (rmatch group s)))
    by (rewrite E; left; reflexivity).
  apply in_flat_map in Hin; destruct Hin as (a & Ha & Hb).
  apply in_map_iff in Hb; destruct Hb as (b & Hb & _).
  inversion Hb; subst a b.
  destruct (rmatch_consumed group _ _ Ha) as (w & -> & _).
  exists s1; split; [|exact Ha].
  rewrite length_app, Nat.add_sub, firstn_app, Nat.sub_diag, firstn_all.
  simpl; rewrite app_nil_r; reflexivity.
Qed.

Lemma search_group_some (group rest : regex) (s h : pystr) :
  search_group group rest s = Some h ->
  exists pre s1, s = pre ++ h ++ s1 /\ In s1 (rmatch group (h ++ s1)).
Proof.
  induction s as [|c s IH]; cbn [search_group].
  - destruct (match_group group rest []) as [g|] eqn:E; [|discriminate].
    intros H; inversion H; subst g.
    destruct (match_group_some _ _ _ E) as (s1 & E1 & H1).
    exists [], s1; rewrite <- E1; auto.
  - destruct (match_group group rest (c :: s)) as [g|] eqn:E.
    + intros H; inversion H; subst g.
      destruct (match_group_some _ _ _ E) as (s1 & E1 & H1).
      exists [], s1; rewrite <- E1; auto.
    + intros H; destruct (IH H) as (pre & s1 & -> & H1).
      exists (c :: pre), s1; auto.
Qed.

Lemma in_rmatch_cls (p : char -> bool) (s s' : pystr) :
  In s' (rmatch (Cls p) s) <-> exists c, s = c :: s' /\ p c = true.
Proof.
  cbn [rmatch]; destruct s as [|c s]; simpl.
  - split; [tauto | intros (c & H & _); discriminate].
  - destruct (p c) eqn:E; simpl; split.
    + intros [<- | []]; exists c; auto.
    + intros (d & H & _); inversion H; auto.
    + tauto.
    + intros (d & H & Hd); inversion H; subst; congruence.
Qed.

Lemma in_rmatch_cat (r1 r2 : regex) (s s' : pystr) :
  In s' (rmatch (Cat r1 r2) s)
  <-> exists s1, In s1 (rmatch r1 s) /\ In s' (rmatch r2 s1).
Proof. cbn [rmatch]; apply in_flat_map. Qed.

(** A repetition of at least one turn went through a match of its body. *)
Lemma in_rmatch_rep_pos (r : regex) (lo : nat) (hi : option nat)
    (s s' : pystr) :
  lo <> 0 -> In s' (rmatch (Rep r lo hi) s) ->
  exists s1 w, In s1 (rmatch r s) /\ s1 = w ++ s'.
Proof.
  intros Hlo; change (rmatch (Rep r lo hi) s)
    with (rep (rmatch r) (S (List.length s)) lo hi s).
  apply Nat.eqb_neq in Hlo; cbn [rep]; rewrite Hlo.
  destruct hi as [[|h]|]; [intros [] | |]; rewrite app_nil_r, in_flat_map;
    intros (s1 & H1 & H2); exists s1;
    destruct (@rep_consumed (rmatch r) (alphabet r) (rmatch_consumed r)
                _ _ _ _ _ H2) as (w & E & _); eauto.
Qed.

Lemma in_rmatch_rep_takes (r : regex) (lo : nat) (hi : option nat)
    (s s' : pystr) :
  advances r = true -> In s' (rmatch (Rep r lo hi) s) ->
  List.length s' + lo <= List.length s.
Proof.
  intros Ha H.
  exact (@rep_takes (rmatch r) (rmatch_advances r Ha)
           (S (List.length s)) lo hi s s' H).
Qed.

(** A match of the group [host]: only letters, digits, hyphens and dots,
    at least one dot, and at least four characters. *)
Lemma host_shape (h s1 : pystr) :
  In s1 (rmatch DOMAIN_RE_host (h ++ s1)) ->
  forallb (fun c => cls_alnum_hyphen c || cls_char 46 c) h = true
  /\ In 46%N h /\ 4 <= List.length h.
Proof.
  intros H.
  destruct (rmatch_consumed DOMAIN_RE_host _ _ H) as (w & Ew & Qw).
  apply app_inv_tail in Ew; subst w.
  split.
  { revert Qw; apply forallb_weaken; intros c; cbn [alphabet DOMAIN_RE_host].
    unfold Opt; cbn [alphabet]; unfold cls_alnum_hyphen, cls_alnum.
    destruct (cls_alpha c); simpl; [reflexivity|].
    destruct ((48 <=? c) && (c <=? 57))%N; simpl; [reflexivity|].
    destruct (c =? 45)%N; simpl; [reflexivity|].
    rewrite !orb_false_r; auto. }
  unfold DOMAIN_RE_host in H.
  apply in_rmatch_cat in H; destruct H as (s2 & Hlabels & Htld).
  pose proof (@in_rmatch_rep_takes (Cls cls_alpha) 2 None s2 s1 eq_refl Htld)
    as Ltld.
  destruct (rmatch_consumed _ _ _ Htld) as (w4 & E4 & _).
  apply in_rmatch_rep_pos in Hlabels; [|discriminate].
  destruct Hlabels as (s3 & w3 & Hlabel & E3).
  apply in_rmatch_cat in Hlabel; destruct Hlabel as (sa & Ha & Hrest).
  apply in_rmatch_cat in Hrest; destruct Hrest as (sb & Hb & Hdot).
  apply in_rmatch_cls in Ha; destruct Ha as (c & Ea & _).
  destruct (rmatch_consumed _ _ _ Hb) as (wb & Eb & _).
  apply in_rmatch_cls in Hdot; destruct Hdot as (d & Ed & Hd).
  apply N.eqb_eq in Hd; subst d.
  assert (E : h ++ s1 = (c :: wb ++ 46%N :: w3 ++ w4) ++ s1).
  { rewrite Ea, Eb, Ed, E3, E4; simpl; rewrite <- !app_assoc; simpl.
    rewrite <- !app_assoc; reflexivity. }
  apply app_inv_tail in E; subst h; split.
  - right; apply in_or_app; right; left; reflexivity.
  - apply (f_equal (@List.length char)) in E4.
    rewrite length_app in E4; simpl; rewrite !length_app; simpl.
    rewrite length_app; lia.
Qed.

(** ** The classifier, further *)

Lemma app_label_short (exe label : pystr) :
  dict_get APP_MAP exe = Some label -> List.length label <= 40.
Proof.
  unfold APP_MAP; simpl.
  repeat match goal with
         | |- context [str_eqb exe ?k] =>
             destruct (str_eqb exe k);
             [intros E; inversion E; subst label; vm_compute;
              repeat constructor|]
         end.
  discriminate.
Qed.

Section ClassifierMore.

Context {U : UnicodeTables}.

(** X8.  An empty title, which is what a failed probe gives, is
    labelled [SAFE_IDLE_MESSAGE] whatever the terms and the executable are,
    with any [str.lower] that keeps the empty string empty. *)
Theorem empty_title_idle (terms : list pystr) (exe : pystr) :
  str_lower [] = [] ->
  title_has_sensitive_term terms [] = false
  /\ derive_label terms [] exe = (SAFE_IDLE_MESSAGE, None).
Proof.
  intros L.
  assert (H : title_has_sensitive_term terms [] = false).
  { unfold title_has_sensitive_term; rewrite L.
    induction terms as [|t terms IH]; [reflexivity|].
    cbn [existsb]; destruct t; simpl; exact IH. }
  split; [exact H|]; unfold derive_label; rewrite H; reflexivity.
Qed.

Lemma derive_label_image (terms : list pystr) (title exe : pystr) :
  snd (derive_label terms title exe) = None.
Proof.
  unfold derive_label.
  destruct (title_has_sensitive_term terms title); [reflexivity|].
  destruct title; [reflexivity|].
  destruct (str_mem exe BROWSERS).
  - destruct (DOMAIN_RE_search _); reflexivity.
  - destruct (dict_get APP_MAP exe); reflexivity.
Qed.

(** X9.  For an executable that is not a browser the label is at most 40
    code points long, whatever the title is; and no branch of
    [derive_label] gives an image key. *)
Theorem label_bound_outside_browsers (terms : list pystr) (title exe : pystr) :
  snd (derive_label terms title exe) = None
  /\ (str_mem exe BROWSERS = false ->
      List.length (fst (derive_label terms title exe)) <= 40).
Proof.
  unfold derive_label.
  destruct (title_has_sensitive_term terms title);
    [split; [reflexivity | intros _; vm_compute; repeat constructor]|].
  destruct title as [|c title];
    [split; [reflexivity | intros _; vm_compute; repeat constructor]|].
  destruct (str_mem exe BROWSERS).
  - destruct (DOMAIN_RE_search (c :: title)); split; try reflexivity;
      discriminate.
  - destruct (dict_get APP_MAP exe) as [label|] eqn:E;
      (split; [reflexivity | intros _; cbn [fst]]).
    + exact (app_label_short _ E).
    + pose proof (@sanitize_length (c :: title) 40 ltac:(lia)); lia.
Qed.

(** X10.  In a browser, when [DOMAIN_RE] finds a host in a title with no
    sensitive term, the label is ["Browsing "] and the lowercased host; the
    host is a substring of the title, made of letters, digits, hyphens and
    dots only, with a dot in it and at least four characters. *)
Theorem browser_host_label (terms : list pystr) (title exe host : pystr) :
  title_has_sensitive_term terms title = false ->
  str_mem exe BROWSERS = true ->
  DOMAIN_RE_search title = Some host ->
  derive_label terms title exe = (lit "Browsing " ++ str_lower host, None)
  /\ occurs host title
  /\ forallb (fun c => cls_alnum_hyphen c || cls_char 46 c) host = true
  /\ In 46%N host
  /\ 4 <= List.length host.
Proof.
  intros Hclean Hb Hs.
  destruct (search_group_some _ _ _ Hs) as (pre & s1 & E & Hm).
  destruct (host_shape _ _ Hm) as (Hchars & Hdot & Hlen).
  split; [|split; [exists pre, s1; exact E | auto]].
  unfold derive_label; rewrite Hclean, Hb, Hs.
  destruct title; [|reflexivity].
  destruct pre; [destruct host; [destruct Hdot | discriminate] | discriminate].
Qed.

(** X11.  A title with no dot in it, or with fewer than four characters,
    holds no host for [DOMAIN_RE]: in a browser such a title takes the
    sanitized fallback. *)
Theorem no_host_without_dot (title : pystr) :
  ~ In 46%N title \/ List.length title < 4 ->
  DOMAIN_RE_search title = None.
Proof.
  intros H.
  destruct (DOMAIN_RE_search title) as [host|] eqn:Hs; [|reflexivity].
  destruct (search_group_some _ _ _ Hs) as (pre & s1 & E & Hm).
  destruct (host_shape _ _ Hm) as (_ & Hdot & Hlen).
  exfalso; destruct H as [H | H].
  - apply H; rewrite E; apply in_or_app; right; apply in_or_app; left.
    exact Hdot.
  - rewrite E, !length_app in H; lia.
Qed.

End ClassifierMore.

Lemma empty_title_idle_witness :
  title_has_sensitive_term (lit "" :: parse_mask_terms None) [] = false
  /\ derive_label (lit "" :: parse_mask_terms None) [] (lit "chrome.exe")
     = (SAFE_IDLE_MESSAGE, None).
Proof. apply (@empty_title_idle ascii_tables); reflexivity. Defined.

Lemma label_bound_outside_browsers_witness :
  List.length
    (fst (derive_label (parse_mask_terms None)
            (lit "Annual report, second draft, with all the appendices.txt")
            (lit "notepad++.exe"))) <= 40.
Proof.
  apply (@label_bound_outside_browsers ascii_tables); reflexivity.
Defined.

Lemma browser_host_label_witness :
  derive_label (parse_mask_terms None)
    (lit "Inbox - Mail.Example.org:8443 - Firefox") (lit "firefox.exe")
  = (lit "Browsing " ++ str_lower (lit "Mail.Example.org"), None)
  /\ occurs (lit "Mail.Example.org")
       (lit "Inbox - Mail.Example.org:8443 - Firefox")
  /\ forallb (fun c => cls_alnum_hyphen c || cls_char 46 c)
       (lit "Mail.Example.org") = true
  /\ In 46%N (lit "Mail.Example.org")
  /\ 4 <= List.length (lit "Mail.Example.org").
Proof.
  apply (@browser_host_label ascii_tables); reflexivity.
Defined.

Lemma no_host_without_dot_witness :
  DOMAIN_RE_search (lit "New Tab - Firefox") = None
  /\ DOMAIN_RE_search (lit "a.b") = None.
Proof.
  split; apply (@no_host_without_dot ascii_tables).
  - left; intros H; vm_compute in H;
      repeat (destruct H as [H | H]; [discriminate|]); exact H.
  - right; vm_compute; repeat constructor.
Defined.

(** ** The session, further *)

Lemma sleeps_app (added tr : list event) :
  sleeps (added ++ tr) = sleeps tr ++ sleeps added.
Proof. unfold sleeps; rewrite rev_app_distr, flat_map_app; reflexivity. Qed.

Lemma backoff_next (b k : Q) :
  (1 <= b <= 16)%Q -> (1 <= k)%Q ->
  (1 <= Qmin 16 (b * k) <= 16)%Q /\ (b <= Qmin 16 (b * k))%Q.
Proof.
  intros [H1 H2] Hk.
  assert (Hbk : (b <= b * k)%Q) by nra.
  split; [split|].
  - apply Q.min_glb; [lra | lra].
  - apply Q.le_min_l.
  - apply Q.min_glb; [exact H2 | exact Hbk].
Qed.

Section SessionMore.

Variable ch : Channel.

Lemma connect_trace (s : State) :
  exists added, trace (snd (connect ch s)) = added ++ trace s
                /\ Forall connect_event added.
Proof.
  rewrite connect_eq; destruct (is_ready s); [exists []; auto|]; cbv zeta.
  destruct (on_init ch _); [eexists [_]; split; [reflexivity|]|].
  { repeat constructor. }
  destruct (on_connect ch _);
    [eexists [_; _] | eexists [_; _; _]]; (split; [reflexivity|]);
    repeat constructor.
Qed.

Lemma connect_result (s s1 : State) (r : result unit) :
  connect ch s = (r, s1) ->
  client_id (self s1) = client_id (self s)
  /\ (r = Ret tt -> is_ready s1 = true).
Proof.
  rewrite connect_eq; destruct (is_ready s) eqn:R.
  - intros E; inversion E; subst; auto.
  - cbv zeta; destruct (on_init ch _); [intros E; inversion E; split;
                                        [reflexivity | discriminate]|].
    destruct (on_connect ch _); intros E; inversion E; split;
      try reflexivity; discriminate.
Qed.

Lemma update_trace (state : pystr) (large_image : option pystr) (s : State) :
  exists added,
    trace (snd (update ch state large_image s)) = added ++ trace s
    /\ Forall (safe_update_event state large_image) added
    /\ Forall (fun ev => match ev with Sleep _ => False | _ => True end) added
    /\ (fst (update ch state large_image s) = Ret tt ->
        is_ready (snd (update ch state large_image s)) = true
        /\ exists h rest,
             added = CallUpdate h state (payload_image large_image) :: rest
             /\ _rpc (self (snd (update ch state large_image s))) = Some h).
Proof.
  rewrite update_eq.
  assert (C : exists added s0 r0,
             (if is_ready s then (Ret tt, s) else connect ch s) = (r0, s0)
             /\ trace s0 = added ++ trace s
             /\ Forall connect_event added
             /\ (r0 = Ret tt -> is_ready s0 = true)).
  { destruct (is_ready s) eqn:R.
    - exists [], s, (Ret tt); auto.
    - destruct (connect_trace s) as (added & E & F).
      destruct (connect ch s) as [r0 s0] eqn:Ec.
      exists added, s0, r0; repeat split; auto.
      intros ->; exact (proj2 (connect_result _ Ec) eq_refl). }
  destruct C as (added & s0 & r0 & -> & Et & F & Hr).
  assert (F1 : Forall (safe_update_event state large_image) added)
    by (revert F; apply Forall_impl; intros [] H; simpl in *; tauto).
  assert (F2 : Forall (fun ev => match ev with Sleep _ => False | _ => True end)
                 added)
    by (revert F; apply Forall_impl; intros [] H; simpl in *; tauto).
  destruct r0 as [[]|e]; [|exists added; cbn [fst snd]; repeat split; auto;
                           discriminate].
  specialize (Hr eq_refl).
  destruct (_rpc (self s0)) as [h|] eqn:Eh.
  - unfold channel_call.
    exists (CallUpdate h state (payload_image large_image) :: added).
    destruct (on_update ch _); cbn [fst snd record trace self]; rewrite Et;
      (split; [reflexivity|]); (split; [constructor; [simpl; auto | exact F1]|]);
      (split; [constructor; [exact I | exact F2]|]);
      [discriminate|].
    intros _; split; [exact Hr|].
    exists h, added; auto.
  - unfold is_ready in Hr; rewrite Eh, andb_false_r in Hr; discriminate.
Qed.


Lemma sleeps_none (added : list event) :
  Forall (fun ev => match ev with Sleep _ => False | _ => True end) added ->
  sleeps added = [].
Proof.
  induction 1 as [|ev added Hev _ IH]; [reflexivity|].
  rewrite sleeps_cons, IH; destruct ev; try reflexivity; destruct Hev.
Qed.

Lemma connect_sleeps (s : State) (added : list event) :
  Forall connect_event added -> sleeps added = [].
Proof.
  intros F; apply sleeps_none; revert F; apply Forall_impl.
  intros [] H; simpl in *; tauto.
Qed.

(** What one turn of the loop adds to the trace, and how it ends. *)
Lemma turn_trace (state : pystr) (large_image : option pystr) (backoff : Q)
    (s : State) :
  (1 <= backoff <= 16)%Q ->
  exists added,
    trace (snd (safe_update_turn ch state large_image backoff s))
    = added ++ trace s
    /\ Forall (safe_update_event state large_image) added
    /\ match fst (safe_update_turn ch state large_image backoff s) with
       | Ret None =>
           sleeps added = []
           /\ is_ready (snd (safe_update_turn ch state large_image backoff s))
              = true
           /\ exists h rest,
                added = CallUpdate h state (payload_image large_image) :: rest
                /\ _rpc (self (snd (safe_update_turn ch state large_image
                                      backoff s))) = Some h
       | Ret (Some b') =>
           sleeps added = [backoff]
           /\ (1 <= b' <= 16)%Q /\ (backoff <= b')%Q
       | Raise e =>
           is_pipe_error e = false
           /\ (sleeps added = [] \/ sleeps added = [backoff])
       end.
Proof.
  intros Hb.
  destruct (update_trace state large_image s) as (au & Eu & Fu & Nu & Ru).
  destruct (update ch state large_image s) as [[[]|e] s1] eqn:E;
    cbn [fst snd] in *.
  - rewrite (turn_returns _ _ _ backoff _ E); cbn [fst snd].
    exists au; split; [exact Eu|]; split; [exact Fu|].
    destruct (Ru eq_refl) as (R & h & rest & Ea & Eh).
    split; [apply sleeps_none; exact Nu|]; split; [exact R|]; eauto.
  - destruct (is_pipe_error e) eqn:P.
    + rewrite (turn_pipe_failure _ _ _ backoff _ E P).
      destruct (connect_trace (backing_off backoff s1)) as (ac & Ec & Fc).
      assert (Et : trace (snd (connect ch (backing_off backoff s1)))
                   = (ac ++ Sleep backoff :: Log DEBUG :: au) ++ trace s)
        by (rewrite Ec; cbn [backing_off record with_connected trace];
            rewrite Eu, <- app_assoc; reflexivity).
      assert (Ft : Forall (safe_update_event state large_image)
                     (ac ++ Sleep backoff :: Log DEBUG :: au)).
      { apply Forall_app; split.
        - revert Fc; apply Forall_impl; intros [] H; simpl in *; tauto.
        - constructor; [exact Hb|]; constructor; [exact I | exact Fu]. }
      assert (St : sleeps (ac ++ Sleep backoff :: Log DEBUG :: au)
                   = [backoff]).
      { rewrite sleeps_app, !sleeps_cons, (sleeps_none Nu),
          (connect_sleeps s Fc); reflexivity. }
      pose proof (@backoff_next backoff 2 Hb ltac:(lra)) as [Hn1 Hn2].
      exists (ac ++ Sleep backoff :: Log DEBUG :: au).
      destruct (connect ch (backing_off backoff s1)) as [[[]|e'] s3];
        cbn [fst snd] in *; [auto|].
      destruct e'; cbn [fst snd]; auto.
    + destruct e; try discriminate.
      * rewrite (turn_invalid_id _ _ _ backoff _ E); cbn [fst snd].
        exists (Log ERROR :: au); cbn [record trace]; rewrite Eu.
        split; [reflexivity|]; split; [constructor; [exact I | exact Fu]|].
        rewrite sleeps_cons, (sleeps_none Nu); auto.
      * rewrite (turn_other_failure _ _ _ backoff _ E P) by discriminate.
        cbn [fst snd record trace]; rewrite Eu.
        exists (Sleep backoff :: Log WARNING :: au).
        pose proof (@backoff_next backoff (3 # 2) Hb ltac:(lra)) as [Hn1 Hn2].
        split; [reflexivity|]; split;
          [constructor; [exact Hb|]; constructor; [exact I | exact Fu]|].
        rewrite !sleeps_cons, (sleeps_none Nu); auto.
      * rewrite (turn_other_failure _ _ _ backoff _ E P) by discriminate.
        cbn [fst snd record trace]; rewrite Eu.
        exists (Sleep backoff :: Log WARNING :: au).
        pose proof (@backoff_next backoff (3 # 2) Hb ltac:(lra)) as [Hn1 Hn2].
        split; [reflexivity|]; split;
          [constructor; [exact Hb|]; constructor; [exact I | exact Fu]|].
        rewrite !sleeps_cons, (sleeps_none Nu); auto.
Qed.

(** What a run of the loop adds to the trace, and how it ends. *)
Lemma loop_trace (state : pystr) (large_image : option pystr) (fuel : nat) :
  forall (backoff : Q) (s s' : State) (r : result unit),
    (1 <= backoff <= 16)%Q ->
    safe_update_loop ch fuel state large_image backoff s = Some (r, s') ->
    exists added,
      trace s' = added ++ trace s
      /\ Forall (safe_update_event state large_image) added
      /\ Forall (fun q => (backoff <= q <= 16)%Q) (sleeps added)
      /\ StronglySorted Qle (sleeps added)
      /\ match r with
         | Ret _ =>
             is_ready s' = true
             /\ exists h rest,
                  added = CallUpdate h state (payload_image large_image)
                            :: rest
                  /\ _rpc (self s') = Some h
         | Raise e => is_pipe_error e = false
         end.
Proof.
  induction fuel as [|fuel IH]; intros backoff s s' r Hb;
    cbn [safe_update_loop]; [discriminate|].
  destruct (turn_trace state large_image s Hb) as (a1 & E1 & F1 & T1).
  destruct (safe_update_turn ch state large_image backoff s)
    as [[[b'|]|e] s1]; cbn [fst snd] in *.
  - destruct T1 as (S1 & Hb' & Hle).
    intros H; destruct (IH _ _ _ _ Hb' H) as (a2 & E2 & F2 & B2 & O2 & R2).
    exists (a2 ++ a1); rewrite E2, E1, app_assoc.
    split; [reflexivity|]; split; [apply Forall_app; auto|].
    rewrite sleeps_app, S1.
    assert (B : Forall (fun q => (backoff <= q <= 16)%Q) (sleeps a2)).
    { revert B2; apply Forall_impl; intros q [Q1 Q2]; split; [|exact Q2].
      apply (Qle_trans _ b'); assumption. }
    split; [constructor; [split; [apply Qle_refl | apply Hb] | exact B]|].
    split.
    + constructor; [exact O2|].
      revert B; apply Forall_impl; intros q [Q1 _]; exact Q1.
    + destruct r as [[]|e]; [|exact R2].
      destruct R2 as (R & h & rest & -> & Eh); split; [exact R|].
      exists h, (rest ++ a1); auto.
  - intros H; inversion H; subst r s'; clear H.
    destruct T1 as (S1 & R1 & X1).
    exists a1; rewrite S1; repeat split; auto; constructor.
  - intros H; inversion H; subst r s'; clear H.
    destruct T1 as (P1 & S1).
    exists a1; split; [exact E1|]; split; [exact F1|].
    destruct S1 as [-> | ->].
    + repeat split; auto; constructor.
    + split; [constructor; [split; [apply Qle_refl | apply Hb] | constructor]|].
      split; [repeat constructor | exact P1].
Qed.

(** X12.  After a [connect] that returned, another [connect] does nothing:
    it returns without a call to the channel and leaves the state as it
    is. *)
Theorem connect_twice (s s1 : State) :
  connect ch s = (Ret tt, s1) ->
  connect ch s1 = (Ret tt, s1).
Proof.
  intros H; rewrite connect_eq.
  rewrite (proj2 (connect_result _ H) eq_refl); reflexivity.
Qed.

(** X13.  [close] on a session that holds no channel object, as after a
    first [close] or before any [connect], calls nothing on the channel and
    returns normally: it only logs. *)
Theorem close_twice (s : State) :
  (_rpc (self s) = None -> _connected (self s) = false ->
   close ch s = (Ret tt, record (Log DEBUG) s))
  /\ close ch (snd (close ch s))
     = (Ret tt, record (Log DEBUG) (snd (close ch s))).
Proof.
  assert (H : forall s0, _rpc (self s0) = None ->
                         _connected (self s0) = false ->
                         close ch s0 = (Ret tt, record (Log DEBUG) s0)).
  { intros [[id rpc conn] tr]; cbn; intros -> ->.
    rewrite close_eq; reflexivity. }
  split; [apply H|].
  destruct (close_resets ch s) as (Hr & Hc & _); apply H; assumption.
Qed.

(** X14.  Whatever the channel does, the sleeps of a run of [safe_update]
    are all between 1 and 16 and never decrease. *)
Theorem safe_update_sleeps (fuel : nat) (state : pystr)
    (large_image : option pystr) (s s' : State) (r : result unit) :
  safe_update ch fuel state large_image s = Some (r, s') ->
  exists qs,
    sleeps (trace s') = sleeps (trace s) ++ qs
    /\ Forall (fun q => (1 <= q <= 16)%Q) qs
    /\ StronglySorted Qle qs.
Proof.
  intros H.
  destruct (@loop_trace state large_image fuel 1%Q s s' r ltac:(lra) H)
    as (added & E & _ & B & O & _).
  exists (sleeps added); rewrite E, sleeps_app; auto.
Qed.

(** X15.  [safe_update] never raises a pipe error ([InvalidPipe] or
    [ConnectionRefusedError]) to its caller, and when it returns the
    session is connected and the last event is the channel's [update],
    through the object the session holds, with the state and the image key
    it was given. *)
Theorem safe_update_outcome (fuel : nat) (state : pystr)
    (large_image : option pystr) (s s' : State) (r : result unit) :
  safe_update ch fuel state large_image s = Some (r, s') ->
  match r with
  | Raise e => is_pipe_error e = false
  | Ret _ =>
      is_ready s' = true
      /\ exists h rest,
           trace s' = CallUpdate h state (payload_image large_image) :: rest
           /\ _rpc (self s') = Some h
  end.
Proof.
  intros H.
  destruct (@loop_trace state large_image fuel 1%Q s s' r ltac:(lra) H)
    as (added & E & _ & _ & _ & R).
  destruct r as [[]|e]; [|exact R].
  destruct R as (Hr & h & rest & -> & Eh); split; [exact Hr|].
  exists h, (rest ++ trace s); auto.
Qed.

(** X16.  Everything [safe_update] sends is what it was given: each
    [update] it calls on the channel carries the state and the image key of
    the call, and it never calls the channel's [clear] or [close]. *)
Theorem safe_update_sends (fuel : nat) (state : pystr)
    (large_image : option pystr) (s s' : State) (r : result unit) :
  safe_update ch fuel state large_image s = Some (r, s') ->
  exists added,
    trace s' = added ++ trace s
    /\ forall ev, In ev added ->
         match ev with
         | CallUpdate _ st im =>
             st = state /\ im = payload_image large_image
         | CallClear _ | CallClose _ => False
         | _ => True
         end.
Proof.
  intros H.
  destruct (@loop_trace state large_image fuel 1%Q s s' r ltac:(lra) H)
    as (added & E & F & _).
  exists added; split; [exact E|].
  rewrite Forall_forall in F; intros ev Hev; specialize (F ev Hev).
  destruct ev; simpl in F; auto.
Qed.

End SessionMore.

Section ReachableMore.

Variable ch : Channel.
Hypothesis init_ok : forall k, on_init ch k = None.
Hypothesis connect_ok : forall k, on_connect ch k = None.

(** A turn whose update fails for another reason than a pipe error or an
    invalid id: sleep and go on, with the backoff grown by half, and
    without reconnecting. *)
Lemma turn_retries (state : pystr) (large_image : option pystr)
    (backoff : Q) (s : State) (e : exn) :
  on_update ch (calls is_update (trace s)) = Some e ->
  is_pipe_error e = false -> e <> InvalidID ->
  exists s',
    safe_update_turn ch state large_image backoff s
    = (Ret (Some (Qmin 16 (backoff * (3 # 2)))%Q), s')
    /\ is_ready s' = true
    /\ self s' = self (ensured s)
    /\ sleeps (trace s') = sleeps (trace s) ++ [backoff]
    /\ calls is_update (trace s') = 1 + calls is_update (trace s)
    /\ calls is_connect (trace s')
       = (if is_ready s then 0 else 1) + calls is_connect (trace s).
Proof.
  intros He Hp Hid.
  destruct (@update_calls_channel ch init_ok connect_ok state large_image s)
    as [h Hu].
  rewrite He in Hu.
  rewrite (turn_other_failure _ _ _ backoff _ Hu Hp Hid).
  eexists; split; [reflexivity|].
  split; [exact (@ensured_ready s)|].
  split; [reflexivity|].
  cbn [record trace].
  rewrite !sleeps_cons, !app_nil_r, (@ensured_sleeps s).
  unfold calls; cbn [filter is_update is_connect List.length].
  fold (calls is_update (trace (ensured s))).
  fold (calls is_connect (trace (ensured s))).
  rewrite (@ensured_calls_update s), (@ensured_calls_connect s).
  repeat split; reflexivity.
Qed.

(** X17.  The channel can always be constructed and connected, and its
    [update] fails the first two times for a reason that is neither a pipe
    error nor an invalid id, and succeeds the third time.  Then
    [safe_update] returns on its third turn; the sleeps are 1 and then
    3/2; and it does not reconnect: the channel's [connect] is called once
    if the session was not connected and not at all if it was, in which
    case the session keeps its channel object. *)
Theorem safe_update_two_other_failures
    (state : pystr) (large_image : option pystr) (s : State) (e1 e2 : exn) :
  on_update ch (calls is_update (trace s)) = Some e1 ->
  is_pipe_error e1 = false -> e1 <> InvalidID ->
  on_update ch (1 + calls is_update (trace s)) = Some e2 ->
  is_pipe_error e2 = false -> e2 <> InvalidID ->
  on_update ch (2 + calls is_update (trace s)) = None ->
  exists s',
    safe_update ch 2 state large_image s = None
    /\ (forall n, safe_update ch (3 + n) state large_image s
                  = Some (Ret tt, s'))
    /\ sleeps (trace s') = sleeps (trace s) ++ [1; 3 # 2]%Q
    /\ calls is_update (trace s') = 3 + calls is_update (trace s)
    /\ calls is_connect (trace s')
       = (if is_ready s then 0 else 1) + calls is_connect (trace s)
    /\ (is_ready s = true -> self s' = self s).
Proof.
  intros H1 P1 N1 H2 P2 N2 H3.
  destruct (turn_retries state large_image 1 s H1 P1 N1)
    as (s1 & T1 & R1 & I1 & Z1 & U1 & C1).
  rewrite <- U1 in H2.
  destruct (turn_retries state large_image (Qmin 16 (1 * (3 # 2))) s1
              H2 P2 N2)
    as (s2 & T2 & R2 & I2 & Z2 & U2 & C2).
  assert (H3' : on_update ch (calls is_update (trace s2)) = None)
    by (rewrite U2, U1; exact H3).
  destruct (@turn_succeeds ch init_ok connect_ok state large_image
              (Qmin 16 (Qmin 16 (1 * (3 # 2)) * (3 # 2))) s2 H3')
    as (s3 & T3 & R3 & Z3 & U3 & C3).
  assert (I3 : self s3 = self s2).
  { destruct (@update_calls_channel ch init_ok connect_ok state large_image
                s2) as [h Hu].
    rewrite H3' in Hu.
    rewrite (turn_returns _ _ _
               (Qmin 16 (Qmin 16 (1 * (3 # 2)) * (3 # 2))) _ Hu) in T3.
    inversion T3; subst s3; unfold ensured; rewrite R2; reflexivity. }
  exists s3; unfold safe_update; cbn [safe_update_loop Nat.add].
  rewrite T1, T2, T3.
  split; [reflexivity|].
  split; [reflexivity|].
  split; [rewrite Z3, Z2, Z1, <- app_assoc; reflexivity|].
  split; [rewrite U3, U2, U1; reflexivity|].
  split.
  - rewrite C3, C2, C1, R1, R2; destruct (is_ready s); reflexivity.
  - intros R; rewrite I3, I2.
    unfold ensured; rewrite R1, I1.
    unfold ensured; rewrite R; reflexivity.
Qed.

(** X18.  The loop has no cap on its attempts: while the channel's
    [update] fails at every call, for any reason but an invalid id,
    [safe_update] does not come to an end, however many turns it is
    given. *)
Theorem safe_update_retries_forever
    (state : pystr) (large_image : option pystr) :
  (forall k, exists e, on_update ch k = Some e /\ e <> InvalidID) ->
  forall fuel backoff s,
    safe_update_loop ch fuel state large_image backoff s = None.
Proof.
  intros Hfail; induction fuel as [|fuel IH]; intros backoff s;
    cbn [safe_update_loop]; [reflexivity|].
  destruct (Hfail (calls is_update (trace s))) as (e & He & Hid).
  destruct (is_pipe_error e) eqn:P.
  - destruct (@turn_reconnects ch init_ok connect_ok state large_image
                backoff s e He P) as (s' & -> & _).
    apply IH.
  - destruct (turn_retries state large_image backoff s He P Hid)
      as (s' & -> & _).
    apply IH.
Qed.

End ReachableMore.

(** ** The poll loop *)

Section MainFacts.

Context {U : UnicodeTables}.
Variable ch : Channel.
Variable float_sub : Q -> Q -> Q.

Lemma safe_update_only_sends (fuel : nat) (state : pystr)
    (large_image : option pystr) (s s' : State) (r : result unit) :
  safe_update ch fuel state large_image s = Some (r, s') ->
  exists added,
    trace s' = added ++ trace s
    /\ forall h st im, In (CallUpdate h st im) added ->
         st = state /\ im = payload_image large_image.
Proof.
  intros H.
  destruct (@loop_trace ch state large_image fuel 1%Q s s' r ltac:(lra) H)
    as (added & E & F & _).
  exists added; split; [exact E|].
  rewrite Forall_forall in F; intros h st im Hev; exact (F _ Hev).
Qed.

(** X19.  What a turn of the poll loop sends: every [update] it calls on
    the channel carries the label derived from the probed title and the
    lowercased executable name, and no image key; so for a title whose
    lowercased text holds a stored term, nothing but [SAFE_MASK_MESSAGE]
    reaches the channel. *)
Theorem main_turn_sends_label (fuel : nat) (terms : list pystr)
    (update_secs check_interval : Z) (now last_update : Q)
    (title exe : pystr) (s s' : State) (r : result Q) :
  main_turn ch float_sub fuel terms update_secs check_interval now
    (title, exe) last_update s = Some (r, s') ->
  exists added,
    trace s' = added ++ trace s
    /\ (forall h st im, In (CallUpdate h st im) added ->
          st = fst (derive_label terms title (str_lower exe)) /\ im = None)
    /\ (forall t, In t terms -> t <> [] -> occurs t (str_lower title) ->
        forall h st im, In (CallUpdate h st im) added ->
          st = SAFE_MASK_MESSAGE /\ im = None).
Proof.
  intros H.
  assert (G : exists added,
             trace s' = added ++ trace s
             /\ forall h st im, In (CallUpdate h st im) added ->
                  st = fst (derive_label terms title (str_lower exe))
                  /\ im = None).
  { unfold main_turn in H.
    destruct (Qle_bool _ _).
    - pose proof (derive_label_image terms title (str_lower exe)) as Himg.
      destruct (derive_label terms title (str_lower exe)) as [label image].
      cbn [fst snd] in *; subst image.
      destruct (safe_update ch fuel label None (record (Log DEBUG) s))
        as [[[[]|e] s1]|] eqn:E; [| |discriminate].
      + inversion H; subst r s'; clear H.
        apply safe_update_only_sends in E; destruct E as (added & Et & F).
        exists (Sleep (Qmax FLOAT_0_1 (inject_Z check_interval))
                  :: added ++ [Log DEBUG]).
        cbn [record trace] in *; rewrite Et.
        split; [simpl; rewrite <- app_assoc; reflexivity|].
        intros h st im [Hx | Hx]; [discriminate|].
        apply in_app_iff in Hx; destruct Hx as [Hx | [Hx | []]];
          [|discriminate].
        exact (F _ _ _ Hx).
      + inversion H; subst r s'; clear H.
        apply safe_update_only_sends in E; destruct E as (added & Et & F).
        exists (added ++ [Log DEBUG]).
        cbn [record trace] in *; rewrite Et.
        split; [rewrite <- app_assoc; reflexivity|].
        intros h st im Hx.
        apply in_app_iff in Hx; destruct Hx as [Hx | [Hx | []]];
          [|discriminate].
        exact (F _ _ _ Hx).
    - inversion H; subst r s'; clear H.
      exists [Sleep (Qmax FLOAT_0_1 (inject_Z check_interval))].
      split; [reflexivity|].
      intros h st im [Hx | []]; discriminate. }
  destruct G as (added & Et & F); exists added.
  split; [exact Et|]; split; [exact F|].
  intros t Hin Hne Hocc h st im Hx.
  destruct (F h st im Hx) as [-> ->]; split; [|reflexivity].
  unfold derive_label.
  rewrite (sensitive_term_found terms title Hin Hne Hocc); reflexivity.
Qed.

(** X20.  The cadence of the poll loop: when less than 2 seconds have
    passed since the last publication, a turn calls nothing on the channel
    and keeps [last_update], whatever [update_secs] is; and every turn that
    ends normally ends with one sleep of at least the float [0.1], which is
    [check_interval] when that is 1 or more. *)
Theorem main_turn_cadence (fuel : nat) (terms : list pystr)
    (update_secs check_interval : Z) (now last_update : Q)
    (probe : pystr * pystr) (s : State) :
  let nap := Qmax FLOAT_0_1 (inject_Z check_interval) in
  ((float_sub now last_update < 2)%Q ->
   main_turn ch float_sub fuel terms update_secs check_interval now probe
     last_update s
   = Some (Ret last_update, record (Sleep nap) s))
  /\ (forall last s',
        main_turn ch float_sub fuel terms update_secs check_interval now
          probe last_update s = Some (Ret last, s') ->
        (last = now \/ last = last_update)
        /\ (exists rest, trace s' = Sleep nap :: rest))
  /\ (FLOAT_0_1 <= nap)%Q
  /\ ((1 <= check_interval)%Z -> nap = inject_Z check_interval).
Proof.
  cbv zeta; split; [|split; [|split]].
  - intros Hd; unfold main_turn.
    destruct (Qle_bool _ _) eqn:E; [|reflexivity].
    apply Qle_bool_iff in E.
    assert (H2 : (inject_Z 2 <= inject_Z (Z.max 2 update_secs))%Q)
      by (rewrite <- Zle_Qle; lia).
    exfalso; change (inject_Z 2) with 2%Q in H2; lra.
  - intros last s'; unfold main_turn.
    destruct (Qle_bool _ _).
    + destruct probe as [title exe].
      destruct (derive_label terms title (str_lower exe)) as [label image].
      destruct (safe_update ch fuel label image (record (Log DEBUG) s))
        as [[[[]|e] s1]|]; try discriminate.
      intros H; inversion H; subst; split; [auto | eexists; reflexivity].
    + intros H; inversion H; subst; split; [auto | eexists; reflexivity].
  - apply Q.le_max_l.
  - intros Hc; unfold Qmax, GenericMinMax.gmax.
    destruct (Qcompare_spec FLOAT_0_1 (inject_Z check_interval))
      as [E | E | E]; try reflexivity; exfalso.
    + assert (H1 : (inject_Z 1 <= inject_Z check_interval)%Q)
        by (rewrite <- Zle_Qle; lia).
      unfold FLOAT_0_1 in E; rewrite <- E in H1.
      revert H1; unfold Qle; simpl; lia.
    + assert (H1 : (inject_Z 1 <= inject_Z check_interval)%Q)
        by (rewrite <- Zle_Qle; lia).
      unfold FLOAT_0_1 in E.
      assert (H0 : ((3602879701896397 # 36028797018963968) < inject_Z 1)%Q)
        by reflexivity.
      apply (Qlt_irrefl (inject_Z check_interval)).
      eapply Qlt_le_trans; [exact E|].
      eapply Qle_trans; [apply Qlt_le_weak; exact H0 | exact H1].
Qed.

End MainFacts.

(** ** Concrete runs, further *)

Lemma sanitize_tidy_witness : 32%N = 32%N /\ isspace 98%N = false.
Proof.
  apply (proj2 (proj2 (@sanitize_tidy (lit " a   b ") 40)) (lit "a") 32%N
           98%N []); reflexivity.
Defined.

Lemma connect_twice_witness :
  connect pipe_broken_twice (connected_client (lit "1234"))
  = (Ret tt, connected_client (lit "1234")).
Proof.
  apply (@connect_twice pipe_broken_twice (new_client (lit "1234"))).
  reflexivity.
Defined.

Lemma close_twice_witness :
  close clear_fails (new_client (lit "1234"))
  = (Ret tt, record (Log DEBUG) (new_client (lit "1234"))).
Proof.
  apply (proj1 (@close_twice clear_fails (new_client (lit "1234"))));
    reflexivity.
Defined.

Lemma safe_update_sleeps_witness :
  exists s',
    safe_update pipe_broken_twice 3 SAFE_IDLE_MESSAGE None
      (new_client (lit "1234")) = Some (Ret tt, s')
    /\ exists qs,
         sleeps (trace s') = sleeps (trace (new_client (lit "1234"))) ++ qs
         /\ Forall (fun q => (1 <= q <= 16)%Q) qs
         /\ StronglySorted Qle qs.
Proof.
  eexists; split; [reflexivity|].
  eapply (@safe_update_sleeps pipe_broken_twice 3 SAFE_IDLE_MESSAGE None).
  reflexivity.
Defined.

Lemma safe_update_outcome_witness :
  exists s',
    safe_update pipe_broken_twice 3 SAFE_IDLE_MESSAGE (Some [])
      (new_client (lit "1234")) = Some (Ret tt, s')
    /\ is_ready s' = true
    /\ exists h rest,
         trace s' = CallUpdate h SAFE_IDLE_MESSAGE None :: rest
         /\ _rpc (self s') = Some h.
Proof.
  eexists; split; [reflexivity|].
  eapply (@safe_update_outcome pipe_broken_twice 3 SAFE_IDLE_MESSAGE
            (Some []) (new_client (lit "1234")) _ (Ret tt)).
  reflexivity.
Defined.

Lemma safe_update_sends_witness :
  exists s' added,
    safe_update id_refused_on_reconnect 2 SAFE_MASK_MESSAGE None
      (new_client (lit "1234")) = Some (Ret tt, s')
    /\ trace s' = added ++ trace (new_client (lit "1234"))
    /\ forall ev, In ev added ->
         match ev with
         | CallUpdate _ st im => st = SAFE_MASK_MESSAGE /\ im = None
         | CallClear _ | CallClose _ => False
         | _ => True
         end.
Proof.
  destruct (@safe_update_sends id_refused_on_reconnect 2 SAFE_MASK_MESSAGE
              None (new_client (lit "1234")) _ _ eq_refl)
    as (added & E & F).
  eexists; exists added; split; [reflexivity|]; split; [exact E | exact F].
Defined.

Lemma safe_update_two_other_failures_witness :
  exists s',
    safe_update update_fails_twice 2 SAFE_IDLE_MESSAGE None
      (connected_client (lit "1234")) = None
    /\ (forall n, safe_update update_fails_twice (3 + n) SAFE_IDLE_MESSAGE
                    None (connected_client (lit "1234")) = Some (Ret tt, s'))
    /\ sleeps (trace s') = [1; 3 # 2]%Q
    /\ calls is_update (trace s') = 3
    /\ calls is_connect (trace s') = 1
    /\ (true = true -> self s' = self (connected_client (lit "1234"))).
Proof.
  apply (@safe_update_two_other_failures update_fails_twice
           (fun _ => eq_refl) (fun _ => eq_refl) SAFE_IDLE_MESSAGE None
           (connected_client (lit "1234")) OtherError OtherError);
    try reflexivity; discriminate.
Defined.

Lemma safe_update_retries_forever_witness :
  safe_update_loop pipe_always_broken 1000 SAFE_IDLE_MESSAGE None 1
    (new_client (lit "1234")) = None.
Proof.
  apply (@safe_update_retries_forever pipe_always_broken
           (fun _ => eq_refl) (fun _ => eq_refl) SAFE_IDLE_MESSAGE None).
  intros k; exists InvalidPipe; split; [reflexivity | discriminate].
Defined.

Lemma main_turn_sends_label_witness :
  exists r s' added,
    main_turn pipe_broken_twice Qminus 3 (parse_mask_terms None) 15 1
      100 (lit "Payroll 2024.xlsx - Excel", lit "EXCEL.EXE") 0
      (new_client (lit "1234")) = Some (r, s')
    /\ trace s' = added ++ trace (new_client (lit "1234"))
    /\ forall h st im, In (CallUpdate h st im) added ->
         st = SAFE_MASK_MESSAGE /\ im = None.
Proof.
  destruct (main_turn pipe_broken_twice Qminus 3 (parse_mask_terms None) 15 1
              100 (lit "Payroll 2024.xlsx - Excel", lit "EXCEL.EXE") 0
              (new_client (lit "1234"))) as [[r s']|] eqn:E;
    [|vm_compute in E; discriminate].
  destruct (@main_turn_sends_label ascii_tables pipe_broken_twice Qminus 3
              (parse_mask_terms None) 15 1 100 0
              (lit "Payroll 2024.xlsx - Excel") (lit "EXCEL.EXE")
              (new_client (lit "1234")) s' r E)
    as (added & Et & _ & F).
  exists r, s', added; split; [reflexivity|].
  split; [exact Et|].
  apply (F (lit "payroll")).
  - vm_compute; repeat first [left; reflexivity | right].
  - discriminate.
  - exists [], (lit " 2024.xlsx - excel"); reflexivity.
Defined.

Lemma main_turn_cadence_witness :
  main_turn pipe_broken_twice Qminus 3 (parse_mask_terms None) 0 0
    (3 # 2) (lit "Untitled - Notepad", lit "notepad.exe") 0
    (new_client (lit "1234"))
  = Some (Ret 0%Q,
          record (Sleep (Qmax FLOAT_0_1 (inject_Z 0)))
            (new_client (lit "1234")))
  /\ Qmax FLOAT_0_1 (inject_Z 5) = inject_Z 5.
Proof.
  destruct (@main_turn_cadence ascii_tables pipe_broken_twice Qminus 3
              (parse_mask_terms None) 0 0 (3 # 2) 0
              (lit "Untitled - Notepad", lit "notepad.exe")
              (new_client (lit "1234")))
    as (H & _ & _ & _).
  split; [apply H; reflexivity|].
  destruct (@main_turn_cadence ascii_tables pipe_broken_twice Qminus 3
              (parse_mask_terms None) 0 5 (3 # 2) 0
              (lit "Untitled - Notepad", lit "notepad.exe")
              (new_client (lit "1234")))
    as (_ & _ & _ & H5).
  apply H5; lia.
Defined.
